(** * CurvedArrow: the curve sampler and the arrow renderer of
      [src/CurvedArrow.js], embedded in Rocq.

    JavaScript numbers are binary64 floating-point numbers.  The arithmetic
    of the program is embedded three times:

    - [Sampler], [Renderer] and [Canvas] take the numbers at their exact
      values, over [Q] (equality of numbers is [Qeq], written [==]) and, for
      the drawing-context transforms with their [cos] and [sin], over [R].
      The control flow, the timers, the formulas of the anchor points and
      the properties that no rounding can change are stated there.
    - [Binary64] is the sampler on the binary64 numbers themselves, with the
      operations of the machine; it evaluates concrete inputs.
    - [Rounded] and [RoundedRenderer] are the sampler and the placing of the
      canvas with a rounding [rnd] after every operation, for every rounding
      of relative error at most [u]; round to nearest at 53 bits,
      [round53], is one, and agrees with [Binary64] on the inputs tried
      here.  What depends on the rounding of the arithmetic is proved
      there. *)

From Stdlib Require Import ZArith QArith Qminmax Qround Qabs Qpower.
From Stdlib Require Floats Uint63.
From Stdlib Require Import Reals Qreals.
From Stdlib Require Import Psatz Factorial.
From Stdlib Require Import List String Bool.
Import ListNotations.

(** ** The curve sampler (one axis) *)

Module Sampler.

Local Open Scope Q_scope.

(** [Math.min], [Math.max] and [Math.round] on finite numbers.
    [Math.round] rounds to the nearest integer, a tie going up. *)
Definition Math_min (a b : Q) : Q := Qmin a b.
Definition Math_max (a b : Q) : Q := Qmax a b.
Definition Math_round (x : Q) : Z := Qfloor (x + (1 # 2)).

(** [function bezier(p0, p1, p2, t)] *)
Definition bezier (p0 p1 p2 t : Q) : Q :=
  p1 + (1 - t) * (1 - t) * (p0 - p1) + t * t * (p2 - p1).

(** The divisor of the critical parameter, [p0 - 2 * p1 + p2]. *)
Definition divisor (p0 p1 p2 : Q) : Q := p0 - 2 * p1 + p2.

(** The body of [quadraticCurveMinMax] up to its [return]: the values of the
    locals [min] and [max] when the [return] statement is reached. *)
Definition minMaxLocals (p0 p1 p2 : Q) : Q * Q :=
  let min := Math_min p0 p2 in
  let max := Math_max p0 p2 in
  if negb (Qeq_bool (divisor p0 p1 p2) 0) then
    let t := (p0 - p1) / divisor p0 p1 p2 in
    if Qlt_le_dec 0 t then
      if Qlt_le_dec t 1 then
        let p_middle := bezier p0 p1 p2 t in
        (Math_min min p_middle, Math_max max p_middle)
      else (min, max)
    else (min, max)
  else (min, max).

(** [function quadraticCurveMinMax(p0, p1, p2)], the two-element array it
    returns as a pair. *)
Definition quadraticCurveMinMax (p0 p1 p2 : Q) : Z * Z :=
  let '(min, max) := minMaxLocals p0 p1 p2 in
  (Math_round min, Math_round max).

End Sampler.

(** ** The same sampler on binary64 numbers

    The numbers of the program as it runs: IEEE 754 binary64 values and their
    operations, each rounded to nearest (ties to even). *)

Module Binary64.

Import PrimFloat SpecFloat FloatOps.
Local Open Scope float_scope.

(** The exact value of a finite number (0 for an infinity and for NaN). *)
Definition value (x : float) : Q :=
  match Prim2SF x with
  | S754_finite s m e =>
      let v := if (0 <=? e)%Z then inject_Z (Zpos m * 2 ^ e)
               else (Zpos m # Z.to_pos (2 ^ (- e)))%Q in
      if s then Qopp v else v
  | _ => 0%Q
  end.

Definition of_Z (z : Z) : float :=
  if (z <? 0)%Z then - of_uint63 (Uint63.of_Z (- z))
  else of_uint63 (Uint63.of_Z z).

(** [Math.min] and [Math.max]: NaN if an argument is, and -0 below +0. *)
Definition Math_min (a b : float) : float :=
  if is_nan a || is_nan b then nan
  else if a <? b then a
  else if b <? a then b
  else if get_sign a then a else b.

Definition Math_max (a b : float) : float :=
  if is_nan a || is_nan b then nan
  else if a <? b then b
  else if b <? a then a
  else if get_sign a then b else a.

(** [Math.round]: the integer nearest to the exact value of x, a tie going
    up; a number with no fractional bits, an infinity and NaN are returned as
    they are, and a result of zero keeps the sign of x. *)
Definition Math_round (x : float) : float :=
  match Prim2SF x with
  | S754_finite s m e =>
      if (0 <=? e)%Z then x
      else
        let z := Qfloor (value x + (1 # 2))%Q in
        if (z =? 0)%Z then (if s then -0 else 0) else of_Z z
  | _ => x
  end.

(** [function bezier(p0, p1, p2, t)] *)
Definition bezier (p0 p1 p2 t : float) : float :=
  p1 + (1 - t) * (1 - t) * (p0 - p1) + t * t * (p2 - p1).

(** [function quadraticCurveMinMax(p0, p1, p2)] *)
Definition quadraticCurveMinMax (p0 p1 p2 : float) : float * float :=
  let min := Math_min p0 p2 in
  let max := Math_max p0 p2 in
  let '(min, max) :=
    if negb (p0 - 2 * p1 + p2 =? 0) then
      let t := (p0 - p1) / (p0 - 2 * p1 + p2) in
      if (0 <? t) && (t <? 1) then
        let p_middle := bezier p0 p1 p2 t in
        (Math_min min p_middle, Math_max max p_middle)
      else (min, max)
    else (min, max) in
  (Math_round min, Math_round max).

(** The arguments of the three [ctx.rotate] calls of the arrowhead, as they
    are evaluated: [angle + 1], [-2] and [1 - angle]. *)
Definition headRotations (angle : float) : float * float * float :=
  (angle + 1, -2, 1 - angle).

(** The doubles nearest to 0.1 and to 0.4, and the doubles 1/8 and 1/4. *)
Definition tenth : float := 0x1.999999999999ap-4.
Definition fourTenths : float := 0x1.999999999999ap-2.
Definition eighth : float := 0x1p-3.
Definition quarter : float := 0x1p-2.

End Binary64.

(** ** The same arithmetic with a rounding after every operation

    Every operation of the program returns the rounding [rnd] of its exact
    result.  [Rounding u rnd] is what is used of the rounding: it respects
    equality, leaves 1 and its own results alone, and has relative error at
    most [u].  Round to nearest at 53 significant bits, [round53], is one
    such rounding with [u = 2 ^ (-53)]; it is the binary64 rounding wherever
    that neither overflows nor underflows. *)

Module Rounded.

Local Open Scope Q_scope.

Record Rounding (u : Q) (rnd : Q -> Q) : Prop := {
  rnd_proper : forall x y, x == y -> rnd x == rnd y;
  rnd_one : rnd 1 == 1;
  rnd_idem : forall x, rnd (rnd x) == rnd x;
  rnd_error : forall x, Qabs (rnd x - x) <= u * Qabs x
}.

Section Arithmetic.

Variable rnd : Q -> Q.

Definition add (x y : Q) : Q := rnd (x + y).
Definition sub (x y : Q) : Q := rnd (x - y).
Definition mul (x y : Q) : Q := rnd (x * y).

(** [function bezier(p0, p1, p2, t)], its operations in the order in which
    JavaScript evaluates them. *)
Definition bezier (p0 p1 p2 t : Q) : Q :=
  add (add p1 (mul (mul (sub 1 t) (sub 1 t)) (sub p0 p1)))
      (mul (mul t t) (sub p2 p1)).

(** The arguments of the three [ctx.rotate] calls of the arrowhead. *)
Definition headRotations (angle : Q) : Q * Q * Q :=
  (add angle 1, -2, sub 1 angle).

Definition div (x y : Q) : Q := rnd (x / y).

(** The body of [quadraticCurveMinMax] up to its [return]. *)
Definition minMaxLocals (p0 p1 p2 : Q) : Q * Q :=
  let min := Qmin p0 p2 in
  let max := Qmax p0 p2 in
  let d := add (sub p0 (mul 2 p1)) p2 in
  if negb (Qeq_bool d 0) then
    let t := div (sub p0 p1) d in
    if Qlt_le_dec 0 t then
      if Qlt_le_dec t 1 then
        let p_middle := bezier p0 p1 p2 t in
        (Qmin min p_middle, Qmax max p_middle)
      else (min, max)
    else (min, max)
  else (min, max).

(** [function quadraticCurveMinMax(p0, p1, p2)]; [Math.round] is exact. *)
Definition quadraticCurveMinMax (p0 p1 p2 : Q) : Z * Z :=
  let '(min, max) := minMaxLocals p0 p1 p2 in
  (Sampler.Math_round min, Sampler.Math_round max).

End Arithmetic.

(** The integer part of the binary logarithm of a positive rational. *)
Definition ilog2 (x : Q) : Z :=
  let k := (Z.log2 (Qnum x) - Z.log2 (Zpos (Qden x)))%Z in
  if Qle_bool (2 ^ k) x then k else (k - 1)%Z.

(** The nearest integer, a tie going to the even one. *)
Definition roundEven (y : Q) : Z :=
  let f := Qfloor y in
  match Qcompare (y - inject_Z f) (1 # 2) with
  | Lt => f
  | Eq => if Z.even f then f else (f + 1)%Z
  | Gt => (f + 1)%Z
  end.

(** Rounding of a positive rational to 53 significant bits. *)
Definition roundPos (x : Q) : Q :=
  let e := (ilog2 x - 52)%Z in
  inject_Z (roundEven (x / 2 ^ e)) * 2 ^ e.

Definition round53 (x : Q) : Q :=
  match Qnum x with
  | Z0 => 0
  | Zpos _ => roundPos x
  | Zneg _ => - roundPos (- x)
  end.

Definition u53 : Q := 2 ^ (-53).

End Rounded.

(** ** The arrow renderer: props, DOM, timers and [render] *)

Module Renderer.
Import Sampler.
Local Open Scope Q_scope.

(** What [getBoundingClientRect()] returns (viewport coordinates). *)
Module DOMRect.
Record t : Type := { left : Q; top : Q; width : Q; height : Q }.
End DOMRect.

(** An element found by [document.querySelector]. *)
Record HTMLElement : Type := { getBoundingClientRect : DOMRect.t }.

Record Document : Type := { querySelector : string -> option HTMLElement }.

(** The global [window]; as an [option Window], [None] stands for
    [typeof window === "undefined"].  The page's scroll position has two
    components, of which [render] reads [scrollY] only. *)
Record Window : Type := { scrollX : Q; scrollY : Q; document : Document }.

(** [function isServerSide()] *)
Definition isServerSide (window : option Window) : bool :=
  match window with None => true | Some _ => false end.

(** [this.props]: a prop that was not passed is [None] ([undefined]). *)
Record Props : Type := {
  fromSelector : option string;
  toSelector : option string;
  fromOffsetX : option Q;
  fromOffsetY : option Q;
  toOffsetX : option Q;
  toOffsetY : option Q;
  middleX : option Q;
  middleY : option Q;
  width : option Q;
  color : option string;
  hideIfFoundSelector : option string;
  debugLine : option bool;
  dynamicUpdate : option bool;
  zIndex : option Q
}.

(** [<CurvedArrow />]: no prop passed. *)
Definition noProps : Props :=
  {| fromSelector := None; toSelector := None; fromOffsetX := None;
     fromOffsetY := None; toOffsetX := None; toOffsetY := None;
     middleX := None; middleY := None; width := None; color := None;
     hideIfFoundSelector := None; debugLine := None; dynamicUpdate := None;
     zIndex := None |}.

(** A destructuring default, [name = dflt]. *)
Definition orDefault {A : Type} (o : option A) (dflt : A) : A :=
  match o with Some a => a | None => dflt end.

(** Truthiness of an optional string: [undefined] and the empty string are
    falsy. *)
Definition truthyString (o : option string) : bool :=
  match o with
  | Some EmptyString => false
  | Some _ => true
  | None => false
  end.

(** *** Timers of the host ([setTimeout], [clearTimeout]) *)

(** Timer handles are the positive integers a browser hands out, so a handle is
    always truthy. *)
Definition Handle : Type := positive.

Record Timeout : Type := { handle : Handle; delay : Z }.

(** The host's timer table: the timeouts that are scheduled and have neither
    fired nor been cleared, and the next handle to hand out. *)
Record Host : Type := { pending : list Timeout; fresh : Handle }.

Definition setTimeout (ms : Z) (h : Host) : Handle * Host :=
  (fresh h,
   {| pending := pending h ++ [{| handle := fresh h; delay := ms |}];
      fresh := Pos.succ (fresh h) |}).

Definition clearTimeout (id : Handle) (h : Host) : Host :=
  {| pending := filter (fun t => negb (Pos.eqb (handle t) id)) (pending h);
     fresh := fresh h |}.

(** The component instance: its only field is [this.timer]. *)
Record Instance : Type := { timer : option Handle }.

(** *** What [render] returns *)

(** The object [settings] that the canvas callback closes over. *)
Record Settings : Type := {
  p0x : Q; p0y : Q; p1x : Q; p1y : Q; p2x : Q; p2y : Q;
  size : Q; lineWidth : Q; strokeStyle : string
}.

(** The [<canvas ref=... />] element, with what its callback captured. *)
Record CanvasElement : Type := {
  settings : Settings;
  canvas_debugLine : bool;
  canvas_zIndex : Q
}.

(** [componentWillUnmount()] *)
Definition componentWillUnmount (this : Instance) (host : Host) : Host :=
  match timer this with
  | Some id => clearTimeout id host
  | None => host
  end.

(** [render()]: the element returned ([None] for [null]), and the instance and
    the timer table afterwards.  The statements are taken in source order. *)
Definition render (props : Props) (window : option Window)
    (this : Instance) (host : Host) : option CanvasElement * Instance * Host :=
  (* this.timer = null; *)
  let this := {| timer := None |} in
  let fromSelector_ := orDefault (fromSelector props) "body"%string in
  let toSelector_ := orDefault (toSelector props) fromSelector_ in
  let fromOffsetX_ := orDefault (fromOffsetX props) 0 in
  let fromOffsetY_ := orDefault (fromOffsetY props) 0 in
  let toOffsetX_ := orDefault (toOffsetX props) 0 in
  let toOffsetY_ := orDefault (toOffsetY props) 0 in
  let middleX_ := orDefault (middleX props) 0 in
  let middleY_ := orDefault (middleY props) 0 in
  let width_ := orDefault (width props) 8 in
  let color_ := orDefault (color props) "black"%string in
  let debugLine_ := orDefault (debugLine props) false in
  let dynamicUpdate_ := orDefault (dynamicUpdate props) false in
  let zIndex_ := orDefault (zIndex props) 0 in
  (* if (isServerSide()) return null; *)
  if isServerSide window then (None, this, host) else
  match window with
  | None => (None, this, host)
  | Some window =>
    let fromElement := querySelector (document window) fromSelector_ in
    let toElement := querySelector (document window) toSelector_ in
    (* if (this.timer) clearTimeout(this.timer); *)
    let host :=
      match timer this with
      | Some id => clearTimeout id host
      | None => host
      end in
    let missing :=
      match fromElement, toElement with
      | Some _, Some _ => false
      | _, _ => true
      end in
    (* if (dynamicUpdate || !fromElement || !toElement) this.timer = setTimeout(..., 200); *)
    let '(this, host) :=
      if dynamicUpdate_ || missing then
        let '(id, host') := setTimeout 200 host in
        ({| timer := Some id |}, host')
      else (this, host) in
    match fromElement, toElement with
    | Some fromElement, Some toElement =>
      let hidden :=
        if truthyString (hideIfFoundSelector props) then
          match querySelector (document window)
                  (orDefault (hideIfFoundSelector props) EmptyString) with
          | Some _ => true
          | None => false
          end
        else false in
      if hidden then (None, this, host)
      else
        let rect := getBoundingClientRect fromElement in
        let p0x := DOMRect.left rect + DOMRect.width rect / 2 + fromOffsetX_ in
        let p0y := DOMRect.top rect + DOMRect.height rect / 2 - fromOffsetY_
                   + scrollY window in
        let rect := getBoundingClientRect toElement in
        let p2x := DOMRect.left rect + DOMRect.width rect / 2 + toOffsetX_ in
        let p2y := DOMRect.top rect + DOMRect.height rect / 2 - toOffsetY_
                   + scrollY window in
        let p1x := (p0x + p2x) / 2 + middleX_ in
        let p1y := (p0y + p2y) / 2 - middleY_ in
        (Some {| settings :=
                   {| p0x := p0x; p0y := p0y; p1x := p1x; p1y := p1y;
                      p2x := p2x; p2y := p2y; size := 30;
                      lineWidth := width_; strokeStyle := color_ |};
                 canvas_debugLine := debugLine_;
                 canvas_zIndex := zIndex_ |},
         this, host)
    | _, _ => (None, this, host)
    end
  end.

(** *** The canvas callback, first half: placing and sizing the canvas *)

Record Layout : Type := {
  padding : Q;
  x_min : Q; x_max : Q; y_min : Q; y_max : Q;
  (* the control triple in canvas coordinates *)
  local_p0x : Q; local_p0y : Q; local_p1x : Q; local_p1y : Q;
  local_p2x : Q; local_p2y : Q;
  (* canvas.style.left / top (in px), canvas.width / height *)
  style_left : Q; style_top : Q; canvas_width : Q; canvas_height : Q
}.

Definition layout (s : Settings) : Layout :=
  let x_min_max := quadraticCurveMinMax (p0x s) (p1x s) (p2x s) in
  let y_min_max := quadraticCurveMinMax (p0y s) (p1y s) (p2y s) in
  let padding := size s - lineWidth s in
  let x_min := inject_Z (fst x_min_max) - padding in
  let x_max := inject_Z (snd x_min_max) + padding in
  let y_min := inject_Z (fst y_min_max) - padding in
  let y_max := inject_Z (snd y_min_max) + padding in
  {| padding := padding;
     x_min := x_min; x_max := x_max; y_min := y_min; y_max := y_max;
     local_p0x := p0x s - x_min; local_p0y := p0y s - y_min;
     local_p1x := p1x s - x_min; local_p1y := p1y s - y_min;
     local_p2x := p2x s - x_min; local_p2y := p2y s - y_min;
     style_left := x_min; style_top := y_min;
     canvas_width := x_max - x_min; canvas_height := y_max - y_min |}.

(** Modelled from the HTML standard: [canvas.width] and [canvas.height] are
    [unsigned long] attributes.  The number assigned is truncated towards
    zero and taken modulo 2^32, and a result above 2147483647 (so also every
    negative number) gives the default: 300 for the width, 150 for the
    height. *)
Definition toUnsignedLong (dflt : Z) (v : Q) : Z :=
  let n := (Z.quot (Qnum v) (Zpos (Qden v)) mod 4294967296)%Z in
  if (n <=? 2147483647)%Z then n else dflt.

(** The width and height the canvas has after the assignments. *)
Definition widthAttribute (l : Layout) : Z := toUnsignedLong 300 (canvas_width l).
Definition heightAttribute (l : Layout) : Z := toUnsignedLong 150 (canvas_height l).

End Renderer.

(** ** The placing and sizing of the canvas with every operation rounded *)

Module RoundedRenderer.
Import Renderer.
Local Open Scope Q_scope.

Section Arithmetic.

Variable rnd : Q -> Q.

Definition layout (s : Settings) : Layout :=
  let x_min_max := Rounded.quadraticCurveMinMax rnd (p0x s) (p1x s) (p2x s) in
  let y_min_max := Rounded.quadraticCurveMinMax rnd (p0y s) (p1y s) (p2y s) in
  let padding := Rounded.sub rnd (size s) (lineWidth s) in
  let x_min := Rounded.sub rnd (inject_Z (fst x_min_max)) padding in
  let x_max := Rounded.add rnd (inject_Z (snd x_min_max)) padding in
  let y_min := Rounded.sub rnd (inject_Z (fst y_min_max)) padding in
  let y_max := Rounded.add rnd (inject_Z (snd y_min_max)) padding in
  {| padding := padding;
     x_min := x_min; x_max := x_max; y_min := y_min; y_max := y_max;
     local_p0x := Rounded.sub rnd (p0x s) x_min;
     local_p0y := Rounded.sub rnd (p0y s) y_min;
     local_p1x := Rounded.sub rnd (p1x s) x_min;
     local_p1y := Rounded.sub rnd (p1y s) y_min;
     local_p2x := Rounded.sub rnd (p2x s) x_min;
     local_p2y := Rounded.sub rnd (p2y s) y_min;
     style_left := x_min; style_top := y_min;
     canvas_width := Rounded.sub rnd x_max x_min;
     canvas_height := Rounded.sub rnd y_max y_min |}.

End Arithmetic.

End RoundedRenderer.

(** ** The host framework: mounting, updates, timer callbacks, unmounting *)

Module Lifecycle.
Import Renderer.

(** What can happen to one mounted [CurvedArrow]: the framework calls [render]
    (the mount, or an update with the props and the page of that moment), a
    pending timeout fires, or the component is unmounted. *)
Inductive Event : Type :=
| Render (props : Props) (window : option Window)
| Elapse (id : Handle) (window : option Window)
| Unmount.

Record Run : Type := {
  this : Instance;
  host : Host;
  current : Props;                 (* this.props *)
  mounted : bool;
  output : option CanvasElement;   (* what the last render returned *)
  late : list Handle               (* timer callbacks run after unmounting *)
}.

Definition start : Run :=
  {| this := {| timer := None |};
     host := {| pending := []; fresh := 1%positive |};
     current := noProps; mounted := true; output := None; late := [] |}.

Definition isPending (id : Handle) (h : Host) : bool :=
  existsb (fun t => Pos.eqb (handle t) id) (pending h).

(** A call of [render] by the framework, with [this.props = props]. *)
Definition doRender (props : Props) (window : option Window) (r : Run) : Run :=
  let '(out, this', host') := render props window (this r) (host r) in
  {| this := this'; host := host'; current := props; mounted := mounted r;
     output := out; late := late r |}.

(** One event.  A timeout that fires leaves the timer table and runs its
    callback [() => { this.forceUpdate(); }], which renders again while the
    component is mounted. *)
Definition step (r : Run) (e : Event) : Run :=
  match e with
  | Render props window =>
    if mounted r then doRender props window r else r
  | Elapse id window =>
    if isPending id (host r) then
      let r' := {| this := this r; host := clearTimeout id (host r);
                   current := current r; mounted := mounted r;
                   output := output r; late := late r |} in
      if mounted r then doRender (current r) window r'
      else {| this := this r'; host := host r'; current := current r';
              mounted := false; output := output r';
              late := late r' ++ [id] |}
    else r
  | Unmount =>
    if mounted r then
      {| this := this r; host := componentWillUnmount (this r) (host r);
         current := current r; mounted := false; output := None;
         late := late r |}
    else r
  end.

Definition run (es : list Event) : Run := fold_left step es start.

End Lifecycle.

(** ** The 2D drawing context and the canvas callback's drawing *)

Module Canvas.
Import Renderer.
Local Open Scope R_scope.

Definition Point : Type := (R * R)%type.

(** The current transformation matrix [[a c e; b d f; 0 0 1]]. *)
Record Matrix : Type := { ma : R; mb : R; mc : R; md : R; me : R; mf : R }.

Definition identity : Matrix :=
  {| ma := 1; mb := 0; mc := 0; md := 1; me := 0; mf := 0 |}.

Definition mul (m n : Matrix) : Matrix :=
  {| ma := ma m * ma n + mc m * mb n;
     mb := mb m * ma n + md m * mb n;
     mc := ma m * mc n + mc m * md n;
     md := mb m * mc n + md m * md n;
     me := ma m * me n + mc m * mf n + me m;
     mf := mb m * me n + md m * mf n + mf m |}.

Definition translation (x y : R) : Matrix :=
  {| ma := 1; mb := 0; mc := 0; md := 1; me := x; mf := y |}.

Definition rotation (angle : R) : Matrix :=
  {| ma := cos angle; mb := sin angle;
     mc := - sin angle; md := cos angle; me := 0; mf := 0 |}.

Definition apply (m : Matrix) (p : Point) : Point :=
  (ma m * fst p + mc m * snd p + me m, mb m * fst p + md m * snd p + mf m).

(** A path keeps its points as transformed when they were added. *)
Inductive Segment : Type :=
| MoveTo (p : Point)
| LineTo (p : Point)
| QuadraticCurveTo (cp p : Point)
| Arc (m : Matrix) (centre : Point) (radius startAngle endAngle : R).

Record Stroke : Type := {
  stroke_path : list Segment;
  stroke_transform : Matrix;
  stroke_lineWidth : R;
  stroke_strokeStyle : string;
  stroke_lineJoin : string;
  stroke_lineCap : string
}.

Record Context : Type := {
  transform : Matrix;
  path : list Segment;
  strokeStyle : string;
  lineWidth : R;
  lineJoin : string;
  lineCap : string;
  drawn : list Stroke
}.

(** The context [canvas.getContext("2d")] gives after the canvas was sized. *)
Definition freshContext : Context :=
  {| transform := identity; path := []; strokeStyle := "#000000"%string;
     lineWidth := 1; lineJoin := "miter"%string; lineCap := "butt"%string;
     drawn := [] |}.

Definition setTransform (c : Context) (m : Matrix) : Context :=
  {| transform := m; path := path c; strokeStyle := strokeStyle c;
     lineWidth := lineWidth c; lineJoin := lineJoin c; lineCap := lineCap c;
     drawn := drawn c |}.

Definition setPath (c : Context) (p : list Segment) : Context :=
  {| transform := transform c; path := p; strokeStyle := strokeStyle c;
     lineWidth := lineWidth c; lineJoin := lineJoin c; lineCap := lineCap c;
     drawn := drawn c |}.

Definition translate (c : Context) (x y : R) : Context :=
  setTransform c (mul (transform c) (translation x y)).

Definition rotate (c : Context) (angle : R) : Context :=
  setTransform c (mul (transform c) (rotation angle)).

Definition beginPath (c : Context) : Context := setPath c [].

Definition moveTo (c : Context) (x y : R) : Context :=
  setPath c (path c ++ [MoveTo (apply (transform c) (x, y))]).

(** [lineTo] on an empty path only sets the start point. *)
Definition lineTo (c : Context) (x y : R) : Context :=
  match path c with
  | [] => setPath c [MoveTo (apply (transform c) (x, y))]
  | _ => setPath c (path c ++ [LineTo (apply (transform c) (x, y))])
  end.

Definition quadraticCurveTo (c : Context) (cpx cpy x y : R) : Context :=
  let pre :=
    match path c with
    | [] => [MoveTo (apply (transform c) (cpx, cpy))]
    | p => p
    end in
  setPath c (pre ++ [QuadraticCurveTo (apply (transform c) (cpx, cpy))
                                      (apply (transform c) (x, y))]).

Definition arc (c : Context) (x y radius startAngle endAngle : R) : Context :=
  setPath c (path c ++ [Arc (transform c) (x, y) radius startAngle endAngle]).

Definition stroke (c : Context) : Context :=
  {| transform := transform c; path := path c; strokeStyle := strokeStyle c;
     lineWidth := lineWidth c; lineJoin := lineJoin c; lineCap := lineCap c;
     drawn := drawn c ++
              [{| stroke_path := path c; stroke_transform := transform c;
                  stroke_lineWidth := lineWidth c;
                  stroke_strokeStyle := strokeStyle c;
                  stroke_lineJoin := lineJoin c;
                  stroke_lineCap := lineCap c |}] |}.

(** The four assignments under [// Styling]. *)
Definition styling (c : Context) (style : string) (w : R) : Context :=
  {| transform := transform c; path := path c; strokeStyle := style;
     lineWidth := w; lineJoin := "round"%string; lineCap := "round"%string;
     drawn := drawn c |}.

(** [Math.atan2(y, x)] on exact numbers (there is no negative zero here). *)
Definition Math_atan2 (y x : R) : R :=
  if Rlt_dec 0 x then atan (y / x)
  else if Rlt_dec x 0 then
    if Rle_dec 0 y then atan (y / x) + PI else atan (y / x) - PI
  else if Rlt_dec 0 y then PI / 2
  else if Rlt_dec y 0 then - (PI / 2)
  else 0.

(** The control triple in canvas coordinates, as real numbers. *)
Record Triple : Type := {
  t_p0x : R; t_p0y : R; t_p1x : R; t_p1y : R; t_p2x : R; t_p2y : R
}.

Definition localTriple (l : Layout) : Triple :=
  {| t_p0x := Q2R (local_p0x l); t_p0y := Q2R (local_p0y l);
     t_p1x := Q2R (local_p1x l); t_p1y := Q2R (local_p1y l);
     t_p2x := Q2R (local_p2x l); t_p2y := Q2R (local_p2y l) |}.

(** [if (debugLine) { ... }] *)
Definition debugCircles (c : Context) (t : Triple) : Context :=
  let c := stroke (arc c (t_p0x t) (t_p0y t) 10 0 (2 * PI)) in
  let c := stroke (arc c (t_p1x t) (t_p1y t) 10 0 (2 * PI)) in
  stroke (arc c (t_p2x t) (t_p2y t) 10 0 (2 * PI)).

(** [// Arrow body] *)
Definition arrowBody (c : Context) (t : Triple) : Context :=
  let c := beginPath c in
  let c := moveTo c (t_p0x t) (t_p0y t) in
  let c := quadraticCurveTo c (t_p1x t) (t_p1y t) (t_p2x t) (t_p2y t) in
  stroke c.

(** [// Arrow head], in its three commented parts. *)
Definition headRight (c : Context) (angle p2x p2y size : R) : Context :=
  let c := translate c p2x p2y in
  let c := rotate c (angle + 1) in
  let c := beginPath c in
  let c := moveTo c 0 size in
  let c := lineTo c 0 0 in
  stroke c.

Definition headLeft (c : Context) (size : R) : Context :=
  let c := rotate c (-2) in
  let c := lineTo c 0 (- size) in
  stroke c.

Definition restoreContext (c : Context) (angle p2x p2y : R) : Context :=
  let c := rotate c (1 - angle) in
  translate c (- p2x) (- p2y).

Definition arrowHead (c : Context) (angle p2x p2y size : R) : Context :=
  restoreContext (headLeft (headRight c angle p2x p2y size) size) angle p2x p2y.

(** The calls of [arrowHead] with the values a1, a2, a3 of the arguments
    [angle + 1], [-2] and [1 - angle] of its three [ctx.rotate] calls. *)
Definition arrowHeadWith (c : Context) (a1 a2 a3 p2x p2y size : R) : Context :=
  let c := translate c p2x p2y in
  let c := rotate c a1 in
  let c := beginPath c in
  let c := moveTo c 0 size in
  let c := lineTo c 0 0 in
  let c := stroke c in
  let c := rotate c a2 in
  let c := lineTo c 0 (- size) in
  let c := stroke c in
  let c := rotate c a3 in
  translate c (- p2x) (- p2y).

(** The drawing of the canvas callback, from [canvas.getContext("2d")] on. *)
Definition draw (el : CanvasElement) (ctx : Context) : Context :=
  let s := settings el in
  let t := localTriple (layout s) in
  let ctx := if canvas_debugLine el then debugCircles ctx t else ctx in
  let ctx := styling ctx (Renderer.strokeStyle s) (Q2R (Renderer.lineWidth s)) in
  let ctx := arrowBody ctx t in
  let angle := Math_atan2 (t_p2y t - t_p1y t) (t_p2x t - t_p1x t) in
  arrowHead ctx angle (t_p2x t) (t_p2y t) (Q2R (size s)).

End Canvas.

(** ** The vocabulary of the properties *)

Module Notions.
Import Sampler Renderer Lifecycle.
Local Open Scope Q_scope.

(** Coordinates of at most 2^20 pixels in magnitude: the range of pages, on
    which the rounding errors of binary64 arithmetic stay far below a
    pixel. *)
Definition inPixelRange (p : Q) : Prop := - 1048576 <= p <= 1048576.

(** What the analysis of the rounded sampler allows for the error of each
    computed quantity. *)
Definition allowance : Q := 2 ^ (-20).

(** The two anchor elements a pass looks up. *)
Definition fromElementOf (props : Props) (w : Window) : option HTMLElement :=
  querySelector (document w) (orDefault (fromSelector props) "body"%string).

Definition toElementOf (props : Props) (w : Window) : option HTMLElement :=
  querySelector (document w)
    (orDefault (toSelector props) (orDefault (fromSelector props) "body"%string)).

(** The centre of a bounding rectangle, and the conversion of a viewport
    ordinate to a document ordinate by the vertical scroll position. *)



(** The handles of the timeouts that are pending in a run. *)
Definition pendingHandles (r : Run) : list Handle :=
  map handle (pending (host r)).

(** The canvas covers [style_left, style_left + canvas_width] by
    [style_top, style_top + canvas_height] on the page.  A page point is clear
    of the canvas edges by [margin] when the disc of that radius around it
    stays on the canvas. *)
Definition clearOfEdges (l : Layout) (margin x y : Q) : Prop :=
  style_left l + margin <= x /\
  x + margin <= style_left l + canvas_width l /\
  style_top l + margin <= y /\
  y + margin <= style_top l + canvas_height l.

(** The stroked curve: every point of the curve, with half the stroke width
    around it. *)
Definition strokedCurveInside (s : Settings) : Prop :=
  forall t : Q, 0 <= t <= 1 ->
    clearOfEdges (layout s) (lineWidth s / 2)
      (bezier (p0x s) (p1x s) (p2x s) t) (bezier (p0y s) (p1y s) (p2y s) t).

(** The same for a canvas as it is really placed and sized by the layout l:
    its width and height are the [unsigned long] attributes. *)
Definition strokedCurveOn (l : Layout) (s : Settings) : Prop :=
  forall t : Q, 0 <= t <= 1 ->
    let x := bezier (p0x s) (p1x s) (p2x s) t in
    let y := bezier (p0y s) (p1y s) (p2y s) t in
    style_left l + lineWidth s / 2 <= x /\
    x + lineWidth s / 2 <= style_left l + inject_Z (widthAttribute l) /\
    style_top l + lineWidth s / 2 <= y /\
    y + lineWidth s / 2 <= style_top l + inject_Z (heightAttribute l).

(** A point in canvas coordinates is on the canvas. *)
Definition onCanvas (l : Layout) (p : Canvas.Point) : Prop :=
  (0 <= fst p <= Q2R (canvas_width l) /\
   0 <= snd p <= Q2R (canvas_height l))%R.

(** The points at which the segments of a stroked path end. *)
Definition vertices (s : Canvas.Stroke) : list Canvas.Point :=
  flat_map (fun g =>
              match g with
              | Canvas.MoveTo p => [p]
              | Canvas.LineTo p => [p]
              | Canvas.QuadraticCurveTo _ p => [p]
              | Canvas.Arc _ _ _ _ _ => []
              end) (Canvas.stroke_path s).

(** Every end of every stroked segment is on the canvas. *)
Definition drawingInside (el : CanvasElement) : Prop :=
  forall (s : Canvas.Stroke) (p : Canvas.Point),
    In s (Canvas.drawn (Canvas.draw el Canvas.freshContext)) ->
    In p (vertices s) ->
    onCanvas (layout (settings el)) p.

(** The heading of the arrow as the callback computes it. *)
Definition heading (el : CanvasElement) : R :=
  let t := Canvas.localTriple (layout (settings el)) in
  Canvas.Math_atan2 (Canvas.t_p2y t - Canvas.t_p1y t)%R
                    (Canvas.t_p2x t - Canvas.t_p1x t)%R.

Local Open Scope R_scope.

(** The end of a head stroke of length [size] at the end point (p2x, p2y):
    [size * sin 1] back along the heading (cos angle, sin angle) and
    [size * cos 1] to the side, [side] being 1 or -1.  The two ends are mirror
    images of each other in the heading line through the end point. *)
Definition splay (angle p2x p2y size side : R) : Canvas.Point :=
  (p2x + size * (- sin 1 * cos angle - side * cos 1 * sin angle),
   p2y + size * (- sin 1 * sin angle + side * cos 1 * cos angle)).

End Notions.

(** ** Pages and props used as concrete inputs *)

Module Samples.
Import Renderer.
Local Open Scope Q_scope.

(** A page on which no selector finds anything, and one on which every
    selector finds the same 1000 by 800 body at the top left of the viewport. *)
Definition emptyPage : Window :=
  {| scrollX := 0; scrollY := 0;
     document := {| querySelector := fun _ => None |} |}.

Definition bodyElement : HTMLElement :=
  {| getBoundingClientRect :=
       {| DOMRect.left := 0; DOMRect.top := 0;
          DOMRect.width := 1000; DOMRect.height := 800 |} |}.

Definition fullPage : Window :=
  {| scrollX := 0; scrollY := 0;
     document := {| querySelector := fun _ => Some bodyElement |} |}.


(** A page with a 100 by 40 box at (50, 80) under [#a] and a 20 by 20 box at
    (300, 200) under any other selector, scrolled down by 500. *)
Definition samplePage : Window :=
  {| scrollX := 0; scrollY := 500;
     document :=
       {| querySelector := fun sel =>
            if String.eqb sel "#a"%string then
              Some {| getBoundingClientRect :=
                        {| DOMRect.left := 50; DOMRect.top := 80;
                           DOMRect.width := 100; DOMRect.height := 40 |} |}
            else
              Some {| getBoundingClientRect :=
                        {| DOMRect.left := 300; DOMRect.top := 200;
                           DOMRect.width := 20; DOMRect.height := 20 |} |} |} |}.

(** An arrow from [#a] to [#b] with offsets and a displaced control point. *)
Definition sampleProps : Props :=
  {| fromSelector := Some "#a"%string; toSelector := Some "#b"%string;
     fromOffsetX := Some 5; fromOffsetY := Some 7;
     toOffsetX := None; toOffsetY := Some (-3);
     middleX := Some 10; middleY := Some 60;
     width := None; color := None; hideIfFoundSelector := None;
     debugLine := None; dynamicUpdate := None; zIndex := None |}.

(** A new instance, and a host with no timeout scheduled. *)
Definition idle : Instance * Host :=
  ({| timer := None |}, {| pending := []; fresh := 1%positive |}).

(** The same two anchors joined by a stroke of width 40. *)
Definition wideProps : Props :=
  {| fromSelector := Some "#a"%string; toSelector := Some "#b"%string;
     fromOffsetX := None; fromOffsetY := None;
     toOffsetX := None; toOffsetY := None;
     middleX := None; middleY := None;
     width := Some 40; color := None; hideIfFoundSelector := None;
     debugLine := None; dynamicUpdate := None; zIndex := None |}.

End Samples.

(** ** Measures used by the further laws *)

Module Measures.
Import Sampler Renderer Lifecycle.
Local Open Scope Q_scope.

(** The least and the greatest of the three control values. *)
Definition hullMin (p0 p1 p2 : Q) : Q := Qmin p0 (Qmin p1 p2).
Definition hullMax (p0 p1 p2 : Q) : Q := Qmax p0 (Qmax p1 p2).

(** Whether a pass schedules a timeout: there is a [window], and
    [dynamicUpdate] is on or one of the two anchors is not found. *)
Definition schedules (props : Props) (window : option Window) : bool :=
  match window with
  | None => false
  | Some w =>
    orDefault (dynamicUpdate props) false
    || match Notions.fromElementOf props w, Notions.toElementOf props w with
       | Some _, Some _ => false
       | _, _ => true
       end
  end.

(** Events that are a pending timeout firing; and those among them that fire
    in a browser (with a [window]). *)
Definition isElapse (e : Event) : bool :=
  match e with Elapse _ _ => true | _ => false end.

Definition isBrowserElapse (e : Event) : bool :=
  match e with Elapse _ (Some _) => true | _ => false end.

(** Events that are a render by the framework; and those among them whose
    pass schedules a timeout. *)
Definition isRender (e : Event) : bool :=
  match e with Render _ _ => true | _ => false end.

Definition scheduling (e : Event) : bool :=
  match e with Render props window => schedules props window | _ => false end.

(** The state of an instance whose every pending timeout is the one recorded
    in [this.timer], and on which no callback ran late. *)
Definition tracked (r : Run) : Prop :=
  mounted r = true /\ late r = [] /\
  (pending (host r) = [] \/
   exists t, pending (host r) = [t] /\ timer (this r) = Some (handle t)).

(** The state after unmounting with nothing left behind; no event changes
    it. *)
Definition finished (r : Run) : Prop :=
  mounted r = false /\ late r = [] /\ pending (host r) = [] /\ output r = None.

(** The state of a polling instance: exactly one timeout is pending, it has
    delay 200 and it is the one recorded in [this.timer]. *)
Definition polling (props : Props) (r : Run) : Prop :=
  mounted r = true /\ current r = props /\
  exists t, pending (host r) = [t] /\ delay t = 200%Z /\
            timer (this r) = Some (handle t).

End Measures.

(** * Properties *)

(** ** The curve sampler *)

Module SamplerFacts.
Import Sampler Notions.
Local Open Scope Q_scope.

(** *** The curve as a parabola

    With d the divisor, the curve is the chord from p0 to p2 minus
    [d * t * (1 - t)], and, around the critical parameter ts (where
    [ts * d == p0 - p1]), it is [bezier ts + d * (t - ts)^2]. *)

Lemma bezier_chord p0 p1 p2 t :
  bezier p0 p1 p2 t == (1 - t) * p0 + t * p2 - divisor p0 p1 p2 * (t * (1 - t)).
Proof. unfold bezier, divisor. ring. Qed.

Lemma bezier_vertex p0 p1 p2 t ts :
  ts * divisor p0 p1 p2 == p0 - p1 ->
  bezier p0 p1 p2 t - bezier p0 p1 p2 ts == divisor p0 p1 p2 * ((t - ts) * (t - ts)).
Proof.
  intros E.
  assert (H : bezier p0 p1 p2 t - bezier p0 p1 p2 ts
              - divisor p0 p1 p2 * ((t - ts) * (t - ts))
              == 2 * (t - ts) * (ts * divisor p0 p1 p2 - (p0 - p1))).
  { unfold bezier, divisor. ring. }
  rewrite E in H. lra.
Qed.

Lemma bezier_from_start p0 p1 p2 t ts :
  ts * divisor p0 p1 p2 == p0 - p1 ->
  bezier p0 p1 p2 t - p0 == t * divisor p0 p1 p2 * (t - 2 * ts).
Proof.
  intros E.
  assert (H : bezier p0 p1 p2 t - p0 - t * divisor p0 p1 p2 * (t - 2 * ts)
              == 2 * t * (ts * divisor p0 p1 p2 - (p0 - p1))).
  { unfold bezier, divisor. ring. }
  rewrite E in H. lra.
Qed.

Lemma bezier_from_end p0 p1 p2 t ts :
  ts * divisor p0 p1 p2 == p0 - p1 ->
  bezier p0 p1 p2 t - p2 == (1 - t) * divisor p0 p1 p2 * (2 * ts - 1 - t).
Proof.
  intros E.
  assert (H : bezier p0 p1 p2 t - p2 - (1 - t) * divisor p0 p1 p2 * (2 * ts - 1 - t)
              == 2 * (1 - t) * ((p0 - p1) - ts * divisor p0 p1 p2)).
  { unfold bezier, divisor. ring. }
  rewrite E in H. lra.
Qed.

(** The parameter the code computes is the critical one. *)
Lemma critical_mul p0 p1 p2 :
  ~ divisor p0 p1 p2 == 0 ->
  (p0 - p1) / divisor p0 p1 p2 * divisor p0 p1 p2 == p0 - p1.
Proof. intros H. field. exact H. Qed.

Lemma prod3_nonneg a b c : 0 <= a -> 0 <= b -> 0 <= c -> 0 <= a * b * c.
Proof.
  intros. apply Qmult_le_0_compat; [apply Qmult_le_0_compat |]; assumption.
Qed.

Lemma sq_nonneg a : 0 <= a * a.
Proof. nra. Qed.

(** One-sided bounds of the curve on [0,1], by the sign of the divisor and
    the position of the critical parameter. *)
Section Bounds.
Variables p0 p1 p2 t ts : Q.
Let d := divisor p0 p1 p2.
Hypothesis Ht : 0 <= t <= 1.

Lemma below_chord : 0 <= d -> bezier p0 p1 p2 t <= Qmax p0 p2.
Proof.
  intros Hd. rewrite bezier_chord. fold d.
  pose proof (Q.le_max_l p0 p2). pose proof (Q.le_max_r p0 p2).
  assert (0 <= t * (1 - t)) by nra.
  assert (0 <= d * (t * (1 - t))) by (apply Qmult_le_0_compat; assumption).
  nra.
Qed.

Lemma above_chord : d <= 0 -> Qmin p0 p2 <= bezier p0 p1 p2 t.
Proof.
  intros Hd. rewrite bezier_chord. fold d.
  pose proof (Q.le_min_l p0 p2). pose proof (Q.le_min_r p0 p2).
  assert (0 <= t * (1 - t)) by nra.
  assert (0 <= (- d) * (t * (1 - t))) by (apply Qmult_le_0_compat; lra).
  nra.
Qed.

Hypothesis Hts : ts * d == p0 - p1.

Lemma above_vertex : 0 <= d -> bezier p0 p1 p2 ts <= bezier p0 p1 p2 t.
Proof.
  intros Hd. pose proof (bezier_vertex p0 p1 p2 t ts Hts) as E. fold d in E.
  assert (0 <= d * ((t - ts) * (t - ts)))
    by (apply Qmult_le_0_compat; [assumption | apply sq_nonneg]).
  lra.
Qed.

Lemma below_vertex : d <= 0 -> bezier p0 p1 p2 t <= bezier p0 p1 p2 ts.
Proof.
  intros Hd. pose proof (bezier_vertex p0 p1 p2 t ts Hts) as E. fold d in E.
  assert (0 <= (- d) * ((t - ts) * (t - ts)))
    by (apply Qmult_le_0_compat; [lra | apply sq_nonneg]).
  lra.
Qed.

Lemma above_start : 0 <= d -> ts <= 0 -> p0 <= bezier p0 p1 p2 t.
Proof.
  intros Hd H. pose proof (bezier_from_start p0 p1 p2 t ts Hts) as E. fold d in E.
  assert (0 <= t * d * (t - 2 * ts)) by (apply prod3_nonneg; lra).
  lra.
Qed.

Lemma below_start : d <= 0 -> ts <= 0 -> bezier p0 p1 p2 t <= p0.
Proof.
  intros Hd H. pose proof (bezier_from_start p0 p1 p2 t ts Hts) as E. fold d in E.
  assert (0 <= t * (- d) * (t - 2 * ts)) by (apply prod3_nonneg; lra).
  lra.
Qed.

Lemma above_end : 0 <= d -> 1 <= ts -> p2 <= bezier p0 p1 p2 t.
Proof.
  intros Hd H. pose proof (bezier_from_end p0 p1 p2 t ts Hts) as E. fold d in E.
  assert (0 <= (1 - t) * d * (2 * ts - 1 - t)) by (apply prod3_nonneg; lra).
  lra.
Qed.

Lemma below_end : d <= 0 -> 1 <= ts -> bezier p0 p1 p2 t <= p2.
Proof.
  intros Hd H. pose proof (bezier_from_end p0 p1 p2 t ts Hts) as E. fold d in E.
  assert (0 <= (1 - t) * (- d) * (2 * ts - 1 - t)) by (apply prod3_nonneg; lra).
  lra.
Qed.

End Bounds.

(** The locals [min] and [max] bound the curve on [0,1], in every branch. *)
Lemma locals_contain p0 p1 p2 t :
  0 <= t <= 1 ->
  fst (minMaxLocals p0 p1 p2) <= bezier p0 p1 p2 t <= snd (minMaxLocals p0 p1 p2).
Proof.
  intros Ht. unfold minMaxLocals, Math_min, Math_max.
  pose proof (Q.le_min_l p0 p2) as m0. pose proof (Q.le_min_r p0 p2) as m2.
  pose proof (Q.le_max_l p0 p2) as M0. pose proof (Q.le_max_r p0 p2) as M2.
  destruct (Qeq_bool (divisor p0 p1 p2) 0) eqn:Ed; cbn [negb].
  - apply Qeq_bool_eq in Ed. cbn [fst snd]. split.
    + apply above_chord; [assumption | lra].
    + apply below_chord; [assumption | lra].
  - apply Qeq_bool_neq in Ed.
    pose proof (critical_mul p0 p1 p2 Ed) as Hts.
    set (ts := (p0 - p1) / divisor p0 p1 p2) in *.
    destruct (Qlt_le_dec 0 (divisor p0 p1 p2)) as [Hd | Hd].
    + (* opens upward *)
      assert (Hd' : 0 <= divisor p0 p1 p2) by lra.
      pose proof (below_chord p0 p1 p2 t Ht Hd') as Hup.
      destruct (Qlt_le_dec 0 ts) as [H0 | H0];
        [destruct (Qlt_le_dec ts 1) as [H1 | H1] |]; cbn [fst snd].
      * pose proof (above_vertex p0 p1 p2 t ts Hts Hd').
        pose proof (Q.le_min_r (Qmin p0 p2) (bezier p0 p1 p2 ts)).
        pose proof (Q.le_max_l (Qmax p0 p2) (bezier p0 p1 p2 ts)).
        lra.
      * pose proof (above_end p0 p1 p2 t ts Ht Hts Hd' H1). lra.
      * pose proof (above_start p0 p1 p2 t ts Ht Hts Hd' H0). lra.
    + pose proof (above_chord p0 p1 p2 t Ht Hd) as Hlo.
      destruct (Qlt_le_dec 0 ts) as [H0 | H0];
        [destruct (Qlt_le_dec ts 1) as [H1 | H1] |]; cbn [fst snd].
      * pose proof (below_vertex p0 p1 p2 t ts Hts Hd).
        pose proof (Q.le_min_l (Qmin p0 p2) (bezier p0 p1 p2 ts)).
        pose proof (Q.le_max_r (Qmax p0 p2) (bezier p0 p1 p2 ts)).
        lra.
      * pose proof (below_end p0 p1 p2 t ts Ht Hts Hd H1). lra.
      * pose proof (below_start p0 p1 p2 t ts Ht Hts Hd H0). lra.
Qed.

(** *** Rounding *)

Lemma Math_round_le x : inject_Z (Math_round x) <= x + (1 # 2).
Proof. unfold Math_round. apply Qfloor_le. Qed.

Lemma Math_round_gt x : x - (1 # 2) < inject_Z (Math_round x).
Proof.
  unfold Math_round. pose proof (Qlt_floor (x + (1 # 2))) as H.
  rewrite inject_Z_plus in H. change (inject_Z 1) with 1 in H. lra.
Qed.

Lemma Math_round_mono x y : x <= y -> (Math_round x <= Math_round y)%Z.
Proof. intros H. unfold Math_round. apply Qfloor_resp_le. lra. Qed.

Lemma Math_round_integer z : Math_round (inject_Z z) = z.
Proof.
  unfold Math_round.
  assert (Hlo : (z <= Qfloor (inject_Z z + (1 # 2)))%Z).
  { rewrite <- (Qfloor_Z z) at 1. apply Qfloor_resp_le. lra. }
  assert (Hhi : (Qfloor (inject_Z z + (1 # 2)) < z + 1)%Z).
  { rewrite Zlt_Qlt, inject_Z_plus. change (inject_Z 1) with 1.
    pose proof (Qfloor_le (inject_Z z + (1 # 2))). lra. }
  lia.
Qed.

(** *** The locals before rounding *)

(** The locals only widen from the end points. *)
Lemma locals_endpoints p0 p1 p2 :
  fst (minMaxLocals p0 p1 p2) <= Qmin p0 p2 /\
  Qmax p0 p2 <= snd (minMaxLocals p0 p1 p2).
Proof.
  unfold minMaxLocals, Math_min, Math_max.
  destruct (negb (Qeq_bool (divisor p0 p1 p2) 0));
    [destruct (Qlt_le_dec 0 ((p0 - p1) / divisor p0 p1 p2));
     [destruct (Qlt_le_dec ((p0 - p1) / divisor p0 p1 p2) 1) |] |];
    cbn [fst snd]; split;
    auto using Q.le_min_l, Q.le_max_l, Qle_refl.
Qed.

Lemma locals_degenerate p0 p1 p2 :
  divisor p0 p1 p2 == 0 ->
  minMaxLocals p0 p1 p2 = (Qmin p0 p2, Qmax p0 p2).
Proof.
  intros H. unfold minMaxLocals.
  apply Qeq_bool_iff in H. rewrite H. reflexivity.
Qed.

Lemma Qmin_inject_Z a b : Qmin (inject_Z a) (inject_Z b) == inject_Z (Z.min a b).
Proof.
  destruct (Q.min_spec (inject_Z a) (inject_Z b)) as [[H E] | [H E]];
    rewrite E.
  - rewrite <- Zlt_Qlt in H. rewrite Z.min_l by lia. reflexivity.
  - rewrite <- Zle_Qle in H. rewrite Z.min_r by lia. reflexivity.
Qed.

Lemma Qmax_inject_Z a b : Qmax (inject_Z a) (inject_Z b) == inject_Z (Z.max a b).
Proof.
  destruct (Q.max_spec (inject_Z a) (inject_Z b)) as [[H E] | [H E]];
    rewrite E.
  - rewrite <- Zlt_Qlt in H. rewrite Z.max_r by lia. reflexivity.
  - rewrite <- Zle_Qle in H. rewrite Z.max_l by lia. reflexivity.
Qed.

#[local] Instance Math_round_proper : Proper (Qeq ==> eq) Math_round.
Proof. intros x y E. unfold Math_round. rewrite E. reflexivity. Qed.

(** The rounded pair is within half a unit of the curve on both sides. *)
Lemma extent_within_half (p0 p1 p2 t : Q) :
  0 <= t <= 1 ->
  inject_Z (fst (quadraticCurveMinMax p0 p1 p2)) - (1 # 2)
    <= bezier p0 p1 p2 t /\
  bezier p0 p1 p2 t
    < inject_Z (snd (quadraticCurveMinMax p0 p1 p2)) + (1 # 2).
Proof.
  intros Ht. pose proof (locals_contain p0 p1 p2 t Ht) as [Hlo Hhi].
  unfold quadraticCurveMinMax.
  destruct (minMaxLocals p0 p1 p2) as [mn mx]. cbn [fst snd] in *.
  pose proof (Math_round_le mn). pose proof (Math_round_gt mx).
  split; lra.
Qed.

(** *** Examples *)

(** The worked example of the specification: [extent(0, 100, 0) = (0, 50)]. *)
Example extent_0_100_0 : quadraticCurveMinMax 0 100 0 = (0, 50)%Z.
Proof. vm_compute. reflexivity. Qed.

Example extent_straight : quadraticCurveMinMax 100 200 300 = (100, 300)%Z.
Proof. vm_compute. reflexivity. Qed.

Example round_ties_go_up :
  Math_round (5 # 2) = 3%Z /\ Math_round (- (5 # 2)) = (-2)%Z.
Proof. vm_compute. split; reflexivity. Qed.

(** *** Endpoint interpolation *)

(** As a polynomial, that is with exact operations, [bezier] at parameter 0 is
    p0 and at parameter 1 is p2. *)
Lemma bezier_endpoints (p0 p1 p2 : Q) :
  bezier p0 p1 p2 0 == p0 /\ bezier p0 p1 p2 1 == p2.
Proof. unfold bezier. split; ring. Qed.

(** *** The degenerate (linear) case *)

(** C3, as the claim states it, fails: with p0 = p1 = p2 = 1/2 the divisor is
    0 and the result is the rounded pair (1, 1), not (1/2, 1/2). *)
Lemma degenerate_extent_is_rounded :
  divisor (1 # 2) (1 # 2) (1 # 2) == 0 /\
  quadraticCurveMinMax (1 # 2) (1 # 2) (1 # 2) = (1, 1)%Z /\
  ~ (inject_Z (fst (quadraticCurveMinMax (1 # 2) (1 # 2) (1 # 2)))
       == Qmin (1 # 2) (1 # 2) /\
     inject_Z (snd (quadraticCurveMinMax (1 # 2) (1 # 2) (1 # 2)))
       == Qmax (1 # 2) (1 # 2)).
Proof.
  split; [vm_compute; reflexivity |]. split; [vm_compute; reflexivity |].
  intros [H _]. vm_compute in H. discriminate H.
Qed.

(** C3, amended: when p0 - 2 p1 + p2 = 0, [quadraticCurveMinMax] returns
    exactly the pair (round(min(p0,p2)), round(max(p0,p2))); this is
    (min(p0,p2), max(p0,p2)) itself when p0 and p2 are integers. *)
Theorem extent_degenerate (p0 p1 p2 : Q) :
  divisor p0 p1 p2 == 0 ->
  quadraticCurveMinMax p0 p1 p2
    = (Math_round (Qmin p0 p2), Math_round (Qmax p0 p2)) /\
  (forall a b : Z, p0 == inject_Z a -> p2 == inject_Z b ->
     quadraticCurveMinMax p0 p1 p2 = (Z.min a b, Z.max a b)).
Proof.
  intros Hd.
  assert (E : quadraticCurveMinMax p0 p1 p2
              = (Math_round (Qmin p0 p2), Math_round (Qmax p0 p2))).
  { unfold quadraticCurveMinMax. rewrite (locals_degenerate _ _ _ Hd).
    reflexivity. }
  split; [exact E |].
  intros a b Ha Hb. rewrite E.
  assert (Emin : Qmin p0 p2 == inject_Z (Z.min a b)).
  { rewrite <- Qmin_inject_Z. apply Q.min_compat; assumption. }
  assert (Emax : Qmax p0 p2 == inject_Z (Z.max a b)).
  { rewrite <- Qmax_inject_Z. apply Q.max_compat; assumption. }
  rewrite Emin, Emax, !Math_round_integer. reflexivity.
Qed.

Lemma extent_degenerate_witness :
  divisor 100 200 300 == 0 /\
  quadraticCurveMinMax 100 200 300
    = (Math_round (Qmin 100 300), Math_round (Qmax 100 300)) /\
  (forall a b : Z, 100 == inject_Z a -> 300 == inject_Z b ->
     quadraticCurveMinMax 100 200 300 = (Z.min a b, Z.max a b)).
Proof.
  split; [vm_compute; reflexivity |].
  apply (extent_degenerate 100 200 300). vm_compute. reflexivity.
Defined.

(** *** The result is a well-ordered integer range *)

(** C10: [quadraticCurveMinMax] returns a pair of integers (lo, hi) with
    lo <= hi, lo <= round(min(p0,p2)) and round(max(p0,p2)) <= hi, whichever
    branch is taken. *)
Theorem extent_well_ordered (p0 p1 p2 : Q) :
  let '(lo, hi) := quadraticCurveMinMax p0 p1 p2 in
  (lo <= hi)%Z /\
  (lo <= Math_round (Math_min p0 p2))%Z /\
  (Math_round (Math_max p0 p2) <= hi)%Z.
Proof.
  unfold quadraticCurveMinMax, Math_min, Math_max.
  pose proof (locals_endpoints p0 p1 p2) as [Hlo Hhi].
  destruct (minMaxLocals p0 p1 p2) as [mn mx]. cbn [fst snd] in *.
  assert (Hmm : Qmin p0 p2 <= Qmax p0 p2).
  { pose proof (Q.le_min_l p0 p2). pose proof (Q.le_max_l p0 p2). lra. }
  pose proof (Math_round_mono _ _ Hlo).
  pose proof (Math_round_mono _ _ Hhi).
  pose proof (Math_round_mono _ _ Hmm).
  lia.
Qed.

End SamplerFacts.

(** ** One render pass *)

Module RenderFacts.
Import Sampler Renderer Notions Samples.
Local Open Scope Q_scope.

Example sample_render :
  exists el,
    fst (fst (render sampleProps (Some samplePage) (fst idle) (snd idle)))
      = Some el /\
    p0x (settings el) == 105 /\ p0y (settings el) == 593 /\
    p1x (settings el) == 435 # 2 /\ p1y (settings el) == 593 /\
    p2x (settings el) == 310 /\ p2y (settings el) == 713 /\
    size (settings el) = 30 /\ lineWidth (settings el) = 8.
Proof. eexists. split; [vm_compute; reflexivity |]. repeat split. Qed.

(** [render] never takes a timeout off the table: the test of [this.timer]
    comes after [this.timer = null]. *)
Lemma render_pending_shape props window this host :
  let '(_, this', host') := render props window this host in
  (pending host' = pending host /\ timer this' = None /\ fresh host' = fresh host)
  \/ (pending host' = pending host ++ [{| handle := fresh host; delay := 200 |}]
      /\ timer this' = Some (fresh host)
      /\ fresh host' = Pos.succ (fresh host)).
Proof.
  unfold render, isServerSide. destruct window as [w |]; [| left; auto].
  cbn [timer].
  destruct (querySelector (document w)
              (orDefault (fromSelector props) "body"%string)) as [fe |];
    destruct (querySelector (document w)
                (orDefault (toSelector props)
                   (orDefault (fromSelector props) "body"%string))) as [te |];
    destruct (orDefault (dynamicUpdate props) false);
    cbn [orb setTimeout];
    try (destruct (if truthyString (hideIfFoundSelector props) then _ else _));
    cbn [pending timer fresh]; auto.
Qed.




(** C8: in a pass with a [window], if the from or the to selector finds no
    element, [render] returns null and schedules one timeout, of exactly 200,
    whose handle it stores in [this.timer]; if both find an element, [render]
    returns a canvas unless [hideIfFoundSelector] is set (non-empty) and finds
    an element. *)
Theorem render_missing_or_found
    (props : Props) (w : Window) (this : Instance) (host : Host) :
  let '(out, this', host') := render props (Some w) this host in
  ((fromElementOf props w = None \/ toElementOf props w = None) ->
     out = None /\
     pending host' = pending host ++ [{| handle := fresh host; delay := 200 |}] /\
     timer this' = Some (fresh host)) /\
  ((fromElementOf props w <> None /\ toElementOf props w <> None) ->
     (out = None <->
      truthyString (hideIfFoundSelector props) = true /\
      querySelector (document w)
        (orDefault (hideIfFoundSelector props) EmptyString) <> None)).
Proof.
  unfold fromElementOf, toElementOf, render, isServerSide. cbn [timer].
  destruct (querySelector (document w)
              (orDefault (fromSelector props) "body"%string)) as [fe |];
    destruct (querySelector (document w)
                (orDefault (toSelector props)
                   (orDefault (fromSelector props) "body"%string))) as [te |];
    cbn [orb setTimeout];
    try (rewrite orb_true_r; cbn [setTimeout pending timer fresh];
         split; [intros _; auto | intros [Hf Ht]; congruence]).
  assert (Hhide :
    (if truthyString (hideIfFoundSelector props)
     then match querySelector (document w)
                  (orDefault (hideIfFoundSelector props) EmptyString) with
          | Some _ => true
          | None => false
          end
     else false) = true <->
    truthyString (hideIfFoundSelector props) = true /\
    querySelector (document w)
      (orDefault (hideIfFoundSelector props) EmptyString) <> None).
  { destruct (truthyString (hideIfFoundSelector props));
      destruct (querySelector (document w)
                  (orDefault (hideIfFoundSelector props) EmptyString));
      split; try intros [? ?]; try intros ?; try split;
      congruence. }
  destruct (orDefault (dynamicUpdate props) false); cbn [orb setTimeout];
    destruct (if truthyString (hideIfFoundSelector props) then _ else _);
    (split; [intros [H | H]; discriminate H |]);
    intros _; rewrite <- Hhide; split; congruence.
Qed.

Lemma render_missing_or_found_witness :
  (let '(out, this', host') :=
     render noProps (Some emptyPage) (fst idle) (snd idle) in
   out = None /\
   pending host' = [{| handle := 1%positive; delay := 200 |}] /\
   timer this' = Some 1%positive) /\
  fst (fst (render sampleProps (Some samplePage) (fst idle) (snd idle)))
    <> None.
Proof.
  split.
  - pose proof (render_missing_or_found noProps emptyPage (fst idle)
                  (snd idle)) as H.
    destruct (render noProps (Some emptyPage) (fst idle) (snd idle))
      as [[out this'] host'].
    destruct H as [H _]. apply H. left. reflexivity.
  - pose proof (render_missing_or_found sampleProps samplePage (fst idle)
                  (snd idle)) as H.
    destruct (render sampleProps (Some samplePage) (fst idle) (snd idle))
      as [[out this'] host'].
    destruct H as [_ H]. cbn [fst]. intros Hnone.
    apply H in Hnone; [| split; discriminate].
    destruct Hnone as [Hnone _]. discriminate Hnone.
Defined.

End RenderFacts.

(** ** Retry timers over the life of an instance *)

Module LifecycleFacts.
Import Renderer Lifecycle Notions Samples.

(** [componentWillUnmount] takes the timeout recorded in [this.timer] off the
    table. *)
Lemma unmount_clears_recorded (this : Instance) (host : Host) (id : Handle) :
  timer this = Some id ->
  ~ In id (map handle (pending (componentWillUnmount this host))).
Proof.
  intros E. unfold componentWillUnmount, clearTimeout. rewrite E.
  cbn [pending]. rewrite in_map_iff. intros (t & Ht & Hin).
  apply filter_In in Hin. destruct Hin as [_ Hin].
  rewrite Ht, Pos.eqb_refl in Hin. discriminate Hin.
Qed.

(** A timeout firing while at most one is pending leaves at most one pending:
    renders driven by the timer alone do not pile timeouts up. *)
Lemma elapse_keeps_single (r : Run) (id : Handle) (w : option Window) :
  (List.length (pending (host r)) <= 1)%nat ->
  (List.length (pending (host (step r (Elapse id w)))) <= 1)%nat.
Proof.
  intros H. cbn [step]. destruct (isPending id (host r)) eqn:Ep; [| exact H].
  assert (Hnil : pending (clearTimeout id (host r)) = []).
  { unfold isPending in Ep. unfold clearTimeout. cbn [pending].
    destruct (pending (host r)) as [| t [| t' l]]; cbn in *;
      [reflexivity | | lia].
    rewrite orb_false_r in Ep. rewrite Ep. reflexivity. }
  destruct (mounted r).
  - unfold doRender. cbn [Lifecycle.this Lifecycle.host].
    pose proof (RenderFacts.render_pending_shape (current r) w (this r)
                  (clearTimeout id (host r))) as Hr.
    destruct (render (current r) w (this r) (clearTimeout id (host r)))
      as [[out this'] host'].
    cbn [Lifecycle.host].
    destruct Hr as [(Hr & _) | (Hr & _)]; rewrite Hr, Hnil; cbn; lia.
  - cbn [Lifecycle.host]. rewrite Hnil. cbn. lia.
Qed.

(** Every further render on a page without the anchors adds a timeout. *)
Lemma renders_pile_up (n : nat) (r : Run) :
  mounted r = true ->
  List.length (pending (host (fold_left step
            (repeat (Render noProps (Some emptyPage)) n) r)))
  = (List.length (pending (host r)) + n)%nat.
Proof.
  revert r. induction n as [| n IH]; intros r Hm; cbn [repeat fold_left].
  - lia.
  - rewrite IH.
    + cbn [step]. rewrite Hm. unfold doRender, render, isServerSide, emptyPage.
      cbn. rewrite length_app. cbn. lia.
    + cbn [step]. rewrite Hm. unfold doRender.
      destruct (render noProps (Some emptyPage) (this r) (host r))
        as [[out this'] host'].
      exact Hm.
Qed.

(** C2, at the failing input: two renders in a row on a page without the
    anchors (the mount, then an update before the 200 have passed).  The
    second render resets [this.timer] to null before testing it, so the first
    timeout is not cleared: two timeouts are pending. *)
Theorem second_render_keeps_first_timeout :
  let r1 := run [Render noProps (Some emptyPage)] in
  let r2 := run [Render noProps (Some emptyPage);
                 Render noProps (Some emptyPage)] in
  pendingHandles r1 = [1%positive] /\
  timer (this r1) = Some 1%positive /\
  pendingHandles r2 = [1%positive; 2%positive] /\
  timer (this r2) = Some 2%positive /\
  List.length (pending (host r2)) = 2%nat.
Proof. vm_compute. repeat split. Qed.

(** C7, at the failing input: a render without the anchors schedules timeout
    1; an update on a page that has them resets [this.timer] to null and
    schedules nothing; unmounting then finds no handle to clear, timeout 1 is
    still pending, and its callback runs after the unmount. *)
Theorem timeout_outlives_unmount :
  let before := [Render noProps (Some emptyPage);
                 Render noProps (Some fullPage)] in
  let r := run before in
  let r' := run (before ++ [Unmount]) in
  let r'' := run (before ++ [Unmount; Elapse 1%positive (Some fullPage)]) in
  pendingHandles r = [1%positive] /\
  timer (this r) = None /\
  mounted r' = false /\
  pendingHandles r' = [1%positive] /\
  late r'' = [1%positive].
Proof. vm_compute. repeat split. Qed.

End LifecycleFacts.

(** ** The drawing-context transforms around the arrowhead *)

Module CanvasFacts.
Import Canvas Notions.
Local Open Scope R_scope.

Lemma matrix_eq (m n : Matrix) :
  ma m = ma n -> mb m = mb n -> mc m = mc n ->
  md m = md n -> me m = me n -> mf m = mf n -> m = n.
Proof. destruct m, n; cbn; intros; subst; reflexivity. Qed.

Lemma mul_assoc (m n k : Matrix) : mul (mul m n) k = mul m (mul n k).
Proof. apply matrix_eq; cbn; ring. Qed.

Lemma mul_identity_r (m : Matrix) : mul m identity = m.
Proof. apply matrix_eq; cbn; ring. Qed.

Lemma mul_identity_l (m : Matrix) : mul identity m = m.
Proof. apply matrix_eq; cbn; ring. Qed.

Lemma apply_mul (m n : Matrix) (p : Point) :
  apply (mul m n) p = apply m (apply n p).
Proof. destruct p as [x y]. unfold apply; cbn. f_equal; ring. Qed.

Lemma rotation_add (a b : R) :
  mul (rotation a) (rotation b) = rotation (a + b).
Proof.
  apply matrix_eq; cbn; rewrite ?cos_plus, ?sin_plus; ring.
Qed.

Lemma rotation_0 : rotation 0 = identity.
Proof. apply matrix_eq; cbn; rewrite ?cos_0, ?sin_0; ring. Qed.

Lemma translation_add (x y x' y' : R) :
  mul (translation x y) (translation x' y') = translation (x + x') (y + y').
Proof. apply matrix_eq; cbn; ring. Qed.

Lemma translation_0 : translation 0 0 = identity.
Proof. reflexivity. Qed.

Lemma tip_right (angle p2x p2y size : R) :
  apply (mul (translation p2x p2y) (rotation (angle + 1))) (0, size)
  = splay angle p2x p2y size 1.
Proof.
  unfold apply, splay; cbn. rewrite cos_plus, sin_plus. f_equal; ring.
Qed.

Lemma tip_left (angle p2x p2y size : R) :
  apply (mul (translation p2x p2y) (rotation (angle - 1))) (0, - size)
  = splay angle p2x p2y size (-1).
Proof.
  unfold apply, splay; cbn. rewrite cos_minus, sin_minus. f_equal; ring.
Qed.

Lemma head_origin (angle p2x p2y : R) :
  apply (mul (translation p2x p2y) (rotation angle)) (0, 0) = (p2x, p2y).
Proof. unfold apply; cbn. f_equal; ring. Qed.

(** The five transform calls of the arrowhead cancel. *)
Lemma head_transforms_cancel (angle p2x p2y : R) :
  mul (translation p2x p2y)
    (mul (rotation (angle + 1))
       (mul (rotation (-2))
          (mul (rotation (1 - angle)) (translation (- p2x) (- p2y)))))
  = identity.
Proof.
  rewrite <- (mul_assoc (rotation (-2))), rotation_add.
  rewrite <- (mul_assoc (rotation (angle + 1))), rotation_add.
  replace (angle + 1 + (-2 + (1 - angle))) with 0 by ring.
  rewrite rotation_0, mul_identity_l, translation_add.
  replace (p2x + - p2x) with 0 by ring. replace (p2y + - p2y) with 0 by ring.
  reflexivity.
Qed.

Lemma arrow_head_transform (c : Context) (angle p2x p2y size : R) :
  transform (arrowHead c angle p2x p2y size) = transform c.
Proof.
  unfold arrowHead, restoreContext, headLeft, headRight.
  cbn [translate rotate beginPath moveTo lineTo stroke setTransform setPath
       transform path app].
  rewrite !mul_assoc. rewrite head_transforms_cancel.
  apply mul_identity_r.
Qed.

(** The two strokes of the arrowhead, as they are appended to what was drawn. *)
Lemma arrow_head_strokes (c : Context) (angle p2x p2y size : R) :
  exists right left : Stroke,
    drawn (arrowHead c angle p2x p2y size) = drawn c ++ [right; left] /\
    stroke_transform right
      = mul (transform c) (mul (translation p2x p2y) (rotation (angle + 1))) /\
    stroke_transform left
      = mul (transform c) (mul (translation p2x p2y) (rotation (angle - 1))) /\
    stroke_path right
      = [MoveTo (apply (transform c) (splay angle p2x p2y size 1));
         LineTo (apply (transform c) (p2x, p2y))] /\
    stroke_path left
      = stroke_path right
        ++ [LineTo (apply (transform c) (splay angle p2x p2y size (-1)))].
Proof.
  assert (Hleft : mul (mul (mul (transform c) (translation p2x p2y))
                         (rotation (angle + 1))) (rotation (-2))
                  = mul (transform c)
                      (mul (translation p2x p2y) (rotation (angle - 1)))).
  { rewrite !mul_assoc, rotation_add.
    replace (angle + 1 + -2) with (angle - 1) by ring. reflexivity. }
  unfold arrowHead, restoreContext, headLeft, headRight.
  cbn [translate rotate beginPath moveTo lineTo stroke setTransform setPath
       transform path drawn app].
  rewrite <- app_assoc. cbn [app].
  eexists. eexists. split; [reflexivity |].
  cbn [stroke_transform stroke_path].
  rewrite Hleft.
  split; [apply mul_assoc |]. split; [reflexivity |].
  rewrite <- tip_right, <- tip_left, <- (head_origin (angle + 1) p2x p2y).
  rewrite <- !apply_mul, !mul_assoc.
  split; reflexivity.
Qed.

(** Over the reals, that is with the three rotation arguments and the
    composition of the transforms exact: the calls translate(p2x,p2y),
    rotate(angle + 1), rotate(-2), rotate(1 - angle), translate(-p2x,-p2y)
    compose to the identity; the first head stroke is made under the rotation
    angle + 1 and the second under angle - 1, and the ends of the two strokes
    are mirror images in the heading line. *)
Lemma arrow_head_restores_transform (c : Context) (angle p2x p2y size : R) :
  let M := transform c in
  let c' := arrowHead c angle p2x p2y size in
  mul (translation p2x p2y)
    (mul (rotation (angle + 1))
       (mul (rotation (-2))
          (mul (rotation (1 - angle)) (translation (- p2x) (- p2y)))))
  = identity /\
  transform c' = M /\
  exists right left : Stroke,
    drawn c' = drawn c ++ [right; left] /\
    stroke_transform right
      = mul M (mul (translation p2x p2y) (rotation (angle + 1))) /\
    stroke_transform left
      = mul M (mul (translation p2x p2y) (rotation (angle - 1))) /\
    stroke_path right
      = [MoveTo (apply M (splay angle p2x p2y size 1));
         LineTo (apply M (p2x, p2y))] /\
    stroke_path left
      = stroke_path right ++ [LineTo (apply M (splay angle p2x p2y size (-1)))].
Proof.
  intros M c'. split; [apply head_transforms_cancel |].
  split; [apply arrow_head_transform | apply arrow_head_strokes].
Qed.


Lemma arrow_head_as_issued (c : Context) (angle p2x p2y size : R) :
  arrowHead c angle p2x p2y size
  = arrowHeadWith c (angle + 1) (-2) (1 - angle) p2x p2y size.
Proof. reflexivity. Qed.

End CanvasFacts.

(** ** The canvas box and what is drawn on it *)

Module LayoutFacts.
Import Sampler Renderer Notions Samples.
Local Open Scope Q_scope.

Lemma render_settings props w this host el :
  fst (fst (render props (Some w) this host)) = Some el ->
  size (settings el) = 30 /\
  lineWidth (settings el) = orDefault (width props) 8.
Proof.
  unfold render, isServerSide. cbn [timer].
  destruct (querySelector (document w)
              (orDefault (fromSelector props) "body"%string)) as [fe |];
    destruct (querySelector (document w)
                (orDefault (toSelector props)
                   (orDefault (fromSelector props) "body"%string))) as [te |];
    destruct (orDefault (dynamicUpdate props) false); cbn [orb setTimeout];
    try (destruct (if truthyString (hideIfFoundSelector props) then _ else _));
    cbn [fst]; intros H; try discriminate H;
    injection H as <-; split; reflexivity.
Qed.

Lemma Math_atan2_0_0 : Canvas.Math_atan2 0 0 = 0%R.
Proof.
  unfold Canvas.Math_atan2.
  destruct (Rlt_dec 0 0) as [H | _]; [lra |].
  destruct (Rlt_dec 0 0) as [H | _]; [lra |]. reflexivity.
Qed.

Lemma sin_1_lower : (5 / 6 < sin 1)%R.
Proof.
  assert (H1 : (0 <= 1)%R) by lra.
  assert (H2 : (1 <= PI)%R) by (pose proof PI2_1; lra).
  destruct (SIN 1 H1 H2) as [H _].
  apply Rlt_le_trans with (2 := H).
  unfold sin_lb, sin_approx, sum_f_R0, sin_term.
  rewrite !INR_IZR_INZ.
  change (Z.of_nat (fact (2 * 0 + 1))) with 1%Z.
  change (Z.of_nat (fact (2 * 1 + 1))) with 6%Z.
  change (Z.of_nat (fact (2 * 2 + 1))) with 120%Z.
  change (Z.of_nat (fact (2 * 3 + 1))) with 5040%Z.
  cbn [pow Nat.mul Nat.add].
  lra.
Qed.

(** The first head stroke of a drawing on a fresh context starts at the right
    splay point. *)
Lemma draw_head_right (el : CanvasElement) :
  exists right : Canvas.Stroke,
    In right (Canvas.drawn (Canvas.draw el Canvas.freshContext)) /\
    In (splay (heading el)
          (Q2R (local_p2x (layout (settings el))))
          (Q2R (local_p2y (layout (settings el))))
          (Q2R (size (settings el))) 1)
       (vertices right).
Proof.
  unfold Canvas.draw, heading.
  set (t := Canvas.localTriple (layout (settings el))).
  set (angle := Canvas.Math_atan2 _ _).
  set (ctx := Canvas.arrowBody _ _).
  destruct (CanvasFacts.arrow_head_strokes ctx angle (Canvas.t_p2x t)
              (Canvas.t_p2y t) (Q2R (size (settings el))))
    as (right & left & Hd & _ & _ & Hp & _).
  exists right. split.
  - rewrite Hd. apply in_or_app. right. left. reflexivity.
  - unfold vertices. rewrite Hp. cbn [flat_map app]. left.
    assert (Hid : Canvas.transform ctx = Canvas.identity).
    { subst ctx. destruct (canvas_debugLine el); reflexivity. }
    rewrite Hid. subst t; cbn [Canvas.localTriple Canvas.t_p2x Canvas.t_p2y].
    destruct (splay _ _ _ _ _) as [x y].
    unfold Canvas.apply, Canvas.identity; cbn. f_equal; ring.
Qed.

(** C4, as the claim states it, fails, in both of its parts.  With the stroke
    width 40 the padding is -10: the canvas starts 10 to the right of the
    curve's start point, which is off the canvas.  And with no props at all
    (width 8, both anchors the centre of the body) the canvas is 44 by 44
    around the end point, and the first head stroke starts left of the canvas
    edge, at abscissa 22 - 30 sin 1 < 0. *)
Lemma padding_does_not_contain_arrow :
  (exists el,
     fst (fst (render wideProps (Some samplePage)
                 (fst idle) (snd idle))) = Some el /\
     0 < lineWidth (settings el) /\
     ~ strokedCurveInside (settings el)) /\
  (exists el,
     fst (fst (render noProps (Some fullPage)
                 (fst idle) (snd idle))) = Some el /\
     lineWidth (settings el) = 8 /\
     ~ drawingInside el).
Proof.
  split.
  - eexists. split; [vm_compute; reflexivity |]. split; [reflexivity |].
    intros H. specialize (H 0). destruct H as [H _]; [lra |].
    vm_compute in H. apply H. reflexivity.
  - eexists. split; [vm_compute; reflexivity |]. split; [reflexivity |].
    match goal with |- ~ drawingInside ?e => set (el := e) end.
    intros H. destruct (draw_head_right el) as (right & Hin & Hv).
    specialize (H right _ Hin Hv). destruct H as [[H _] _].
    assert (Q22 : Q2R 22 = 22%R) by (unfold Q2R; cbn; lra).
    assert (E2x : Q2R (local_p2x (layout (settings el))) = 22%R).
    { rewrite <- Q22. apply Qeq_eqR. vm_compute. reflexivity. }
    assert (E2y : Q2R (local_p2y (layout (settings el))) = 22%R).
    { rewrite <- Q22. apply Qeq_eqR. vm_compute. reflexivity. }
    assert (E1x : Q2R (local_p1x (layout (settings el))) = 22%R).
    { rewrite <- Q22. apply Qeq_eqR. vm_compute. reflexivity. }
    assert (E1y : Q2R (local_p1y (layout (settings el))) = 22%R).
    { rewrite <- Q22. apply Qeq_eqR. vm_compute. reflexivity. }
    assert (Es : Q2R (size (settings el)) = 30%R).
    { change (size (settings el)) with 30. unfold Q2R; cbn; lra. }
    assert (Eh : heading el = 0%R).
    { unfold heading.
      cbn [Canvas.localTriple Canvas.t_p1x Canvas.t_p1y Canvas.t_p2x
           Canvas.t_p2y].
      rewrite E2x, E2y, E1x, E1y.
      replace (22 - 22)%R with 0%R by ring. apply Math_atan2_0_0. }
    rewrite Eh, E2x, E2y, Es in H.
    unfold splay in H. cbn [fst] in H.
    rewrite cos_0, sin_0 in H.
    pose proof sin_1_lower. lra.
Qed.

End LayoutFacts.

(** ** Further laws of the curve sampler *)

Module SamplerLaws.
Import Sampler SamplerFacts Measures.
Local Open Scope Q_scope.

Lemma hullMin_le p0 p1 p2 :
  hullMin p0 p1 p2 <= p0 /\ hullMin p0 p1 p2 <= p1 /\ hullMin p0 p1 p2 <= p2.
Proof.
  unfold hullMin.
  pose proof (Q.le_min_l p0 (Qmin p1 p2)). pose proof (Q.le_min_r p0 (Qmin p1 p2)).
  pose proof (Q.le_min_l p1 p2). pose proof (Q.le_min_r p1 p2).
  repeat split; lra.
Qed.

Lemma hullMax_ge p0 p1 p2 :
  p0 <= hullMax p0 p1 p2 /\ p1 <= hullMax p0 p1 p2 /\ p2 <= hullMax p0 p1 p2.
Proof.
  unfold hullMax.
  pose proof (Q.le_max_l p0 (Qmax p1 p2)). pose proof (Q.le_max_r p0 (Qmax p1 p2)).
  pose proof (Q.le_max_l p1 p2). pose proof (Q.le_max_r p1 p2).
  repeat split; lra.
Qed.

(** A weighted mean of values that are all at least [m] is at least [m]. *)
Lemma mean_ge (m p0 p1 p2 t : Q) :
  0 <= t <= 1 -> m <= p0 -> m <= p1 -> m <= p2 -> m <= bezier p0 p1 p2 t.
Proof.
  intros [H0 H1] Hp0 Hp1 Hp2.
  assert (E : bezier p0 p1 p2 t - m
              == (1 - t) * (1 - t) * (p0 - m) + 2 * (t * (1 - t)) * (p1 - m)
                 + t * t * (p2 - m)).
  { unfold bezier. ring. }
  assert (0 <= (1 - t) * (1 - t) * (p0 - m))
    by (apply prod3_nonneg; lra).
  assert (0 <= t * (1 - t) * (p1 - m)) by (apply prod3_nonneg; lra).
  assert (0 <= t * t * (p2 - m)) by (apply prod3_nonneg; lra).
  lra.
Qed.

Lemma mean_le (m p0 p1 p2 t : Q) :
  0 <= t <= 1 -> p0 <= m -> p1 <= m -> p2 <= m -> bezier p0 p1 p2 t <= m.
Proof.
  intros [H0 H1] Hp0 Hp1 Hp2.
  assert (E : m - bezier p0 p1 p2 t
              == (1 - t) * (1 - t) * (m - p0) + 2 * (t * (1 - t)) * (m - p1)
                 + t * t * (m - p2)).
  { unfold bezier. ring. }
  assert (0 <= (1 - t) * (1 - t) * (m - p0))
    by (apply prod3_nonneg; lra).
  assert (0 <= t * (1 - t) * (m - p1)) by (apply prod3_nonneg; lra).
  assert (0 <= t * t * (m - p2)) by (apply prod3_nonneg; lra).
  lra.
Qed.

(** Both locals are values of the curve on [0,1]. *)
Lemma locals_attained p0 p1 p2 :
  (exists t, 0 <= t <= 1 /\ bezier p0 p1 p2 t == fst (minMaxLocals p0 p1 p2)) /\
  (exists t, 0 <= t <= 1 /\ bezier p0 p1 p2 t == snd (minMaxLocals p0 p1 p2)).
Proof.
  assert (E0 : bezier p0 p1 p2 0 == p0) by (unfold bezier; ring).
  assert (E1 : bezier p0 p1 p2 1 == p2) by (unfold bezier; ring).
  assert (Hmin : exists t, 0 <= t <= 1 /\ bezier p0 p1 p2 t == Qmin p0 p2).
  { destruct (Q.min_spec p0 p2) as [[_ E] | [_ E]];
      [exists 0 | exists 1]; (split; [lra | rewrite E; assumption]). }
  assert (Hmax : exists t, 0 <= t <= 1 /\ bezier p0 p1 p2 t == Qmax p0 p2).
  { destruct (Q.max_spec p0 p2) as [[_ E] | [_ E]];
      [exists 1 | exists 0]; (split; [lra | rewrite E; assumption]). }
  unfold minMaxLocals, Math_min, Math_max.
  destruct (negb (Qeq_bool (divisor p0 p1 p2) 0)); [| split; assumption].
  set (ts := (p0 - p1) / divisor p0 p1 p2).
  destruct (Qlt_le_dec 0 ts) as [H0 | H0]; [| split; assumption].
  destruct (Qlt_le_dec ts 1) as [H1 | H1]; [| split; assumption].
  cbn [fst snd]. split.
  - destruct (Q.min_spec (Qmin p0 p2) (bezier p0 p1 p2 ts)) as [[_ E] | [_ E]].
    + destruct Hmin as (t & Ht & Et). exists t. split; [exact Ht |].
      rewrite E. exact Et.
    + exists ts. split; [lra | rewrite E; reflexivity].
  - destruct (Q.max_spec (Qmax p0 p2) (bezier p0 p1 p2 ts)) as [[_ E] | [_ E]].
    + exists ts. split; [lra | rewrite E; reflexivity].
    + destruct Hmax as (t & Ht & Et). exists t. split; [exact Ht |].
      rewrite E. exact Et.
Qed.

(** So the locals are the least and the greatest value of the curve on [0,1],
    which determines them. *)
Lemma locals_fst_unique p0 p1 p2 m :
  (forall t, 0 <= t <= 1 -> m <= bezier p0 p1 p2 t) ->
  (exists t, 0 <= t <= 1 /\ bezier p0 p1 p2 t == m) ->
  fst (minMaxLocals p0 p1 p2) == m.
Proof.
  intros Hlow (t & Ht & Et).
  destruct (locals_attained p0 p1 p2) as [(u & Hu & Eu) _].
  pose proof (locals_contain p0 p1 p2 t Ht) as [H _].
  specialize (Hlow u Hu). lra.
Qed.

Lemma locals_snd_unique p0 p1 p2 m :
  (forall t, 0 <= t <= 1 -> bezier p0 p1 p2 t <= m) ->
  (exists t, 0 <= t <= 1 /\ bezier p0 p1 p2 t == m) ->
  snd (minMaxLocals p0 p1 p2) == m.
Proof.
  intros Hup (t & Ht & Et).
  destruct (locals_attained p0 p1 p2) as [_ (u & Hu & Eu)].
  pose proof (locals_contain p0 p1 p2 t Ht) as [_ H].
  specialize (Hup u Hu). lra.
Qed.

(** X6: a control value between the two end values never widens the extent:
    the result is the rounded least and greatest end value. *)
Theorem extent_control_between (p0 p1 p2 : Q) :
  Qmin p0 p2 <= p1 <= Qmax p0 p2 ->
  quadraticCurveMinMax p0 p1 p2
  = (Math_round (Qmin p0 p2), Math_round (Qmax p0 p2)).
Proof.
  intros [Hlo Hhi].
  assert (E0 : bezier p0 p1 p2 0 == p0) by (unfold bezier; ring).
  assert (E1 : bezier p0 p1 p2 1 == p2) by (unfold bezier; ring).
  assert (Emin : fst (minMaxLocals p0 p1 p2) == Qmin p0 p2).
  { apply locals_fst_unique.
    - intros t Ht. apply mean_ge; auto using Q.le_min_l, Q.le_min_r.
    - destruct (Q.min_spec p0 p2) as [[_ E] | [_ E]];
        [exists 0 | exists 1]; (split; [lra | rewrite E; assumption]). }
  assert (Emax : snd (minMaxLocals p0 p1 p2) == Qmax p0 p2).
  { apply locals_snd_unique.
    - intros t Ht. apply mean_le; auto using Q.le_max_l, Q.le_max_r.
    - destruct (Q.max_spec p0 p2) as [[_ E] | [_ E]];
        [exists 1 | exists 0]; (split; [lra | rewrite E; assumption]). }
  unfold quadraticCurveMinMax.
  destruct (minMaxLocals p0 p1 p2) as [mn mx]. cbn [fst snd] in *.
  unfold Math_round. rewrite Emin, Emax. reflexivity.
Qed.

Lemma extent_control_between_witness :
  Qmin 10 (7 # 2) <= 5 <= Qmax 10 (7 # 2) /\
  quadraticCurveMinMax 10 5 (7 # 2)
  = (Math_round (Qmin 10 (7 # 2)), Math_round (Qmax 10 (7 # 2))).
Proof.
  assert (H : Qmin 10 (7 # 2) <= 5 <= Qmax 10 (7 # 2)).
  { split; vm_compute; discriminate. }
  split; [exact H |]. apply (extent_control_between 10 5 (7 # 2)). exact H.
Defined.

(** The extent never reaches beyond the rounded control values. *)
Lemma extent_hull (p0 p1 p2 : Q) :
  (Math_round (hullMin p0 p1 p2) <= fst (quadraticCurveMinMax p0 p1 p2))%Z /\
  (snd (quadraticCurveMinMax p0 p1 p2) <= Math_round (hullMax p0 p1 p2))%Z.
Proof.
  destruct (locals_attained p0 p1 p2) as [(t & Ht & Et) (u & Hu & Eu)].
  destruct (hullMin_le p0 p1 p2) as (? & ? & ?).
  destruct (hullMax_ge p0 p1 p2) as (? & ? & ?).
  pose proof (mean_ge (hullMin p0 p1 p2) p0 p1 p2 t Ht) as Hlo.
  pose proof (mean_le (hullMax p0 p1 p2) p0 p1 p2 u Hu) as Hhi.
  unfold quadraticCurveMinMax.
  destruct (minMaxLocals p0 p1 p2) as [mn mx]. cbn [fst snd] in *.
  split; apply Math_round_mono; [rewrite <- Et | rewrite <- Eu]; auto.
Qed.

(** X8: the extent never reaches beyond the control values: it lies between
    the rounded least and the rounded greatest of p0, p1, p2. *)
Theorem extent_in_hull (p0 p1 p2 : Q) :
  (Math_round (hullMin p0 p1 p2) <= fst (quadraticCurveMinMax p0 p1 p2))%Z /\
  (snd (quadraticCurveMinMax p0 p1 p2) <= Math_round (hullMax p0 p1 p2))%Z.
Proof. apply extent_hull. Qed.

End SamplerLaws.

(** ** Further laws of a render pass *)

Module RenderLaws.
Import Sampler Renderer Notions Samples Measures.
Local Open Scope Q_scope.

(** Case analysis of a pass on the page [w]: the two anchors, the polling
    flag, and the suppression test. *)
Ltac render_cases props w :=
  destruct (querySelector (document w)
              (orDefault (fromSelector props) "body"%string)) as [?fe |];
  destruct (querySelector (document w)
              (orDefault (toSelector props)
                 (orDefault (fromSelector props) "body"%string))) as [?te |];
  destruct (orDefault (dynamicUpdate props) false);
  destruct (truthyString (hideIfFoundSelector props));
  destruct (querySelector (document w)
              (orDefault (hideIfFoundSelector props) EmptyString)) as [?he |];
  cbn [orb setTimeout fst snd getBoundingClientRect
       settings canvas_debugLine canvas_zIndex timer pending fresh].

(** The timer table and [this.timer] after a pass. *)
Lemma render_timers
    (props : Props) (window : option Window) (this : Instance) (host : Host) :
  let '(_, this', host') := render props window this host in
  host' = (if schedules props window then snd (setTimeout 200 host) else host) /\
  timer this' = (if schedules props window then Some (fresh host) else None).
Proof.
  unfold render, schedules, fromElementOf, toElementOf, isServerSide.
  destruct window as [w |]; [| split; reflexivity].
  render_cases props w; split; reflexivity.
Qed.

(** X9: a pass schedules a timeout exactly when there is a [window] and
    [dynamicUpdate] is on or an anchor is missing, whatever it returns (also
    when the arrow is hidden); the timeout has delay 200, its handle is
    stored in [this.timer], and no pending timeout is removed.  Otherwise the
    timer table is untouched and [this.timer] is null. *)
Theorem render_schedules_exactly
    (props : Props) (window : option Window) (this : Instance) (host : Host) :
  let '(_, this', host') := render props window this host in
  host' = (if schedules props window then snd (setTimeout 200 host) else host) /\
  timer this' = (if schedules props window then Some (fresh host) else None).
Proof. apply render_timers. Qed.

(** X10: what a pass returns depends on the props and the page only, not on
    the instance's timer field or on the timeouts that are pending. *)
Theorem render_output_ignores_timers
    (props : Props) (window : option Window)
    (this this' : Instance) (host host' : Host) :
  fst (fst (render props window this host))
  = fst (fst (render props window this' host')).
Proof.
  unfold render, isServerSide.
  destruct window as [w |]; [| reflexivity].
  render_cases props w; reflexivity.
Qed.



End RenderLaws.

(** ** Further laws of the canvas placement *)

Module LayoutLaws.
Import Sampler Renderer Notions Samples Measures.
Local Open Scope Q_scope.

(** The two bounds of an extent are in order. *)
Lemma extent_ordered (p0 p1 p2 : Q) :
  (fst (quadraticCurveMinMax p0 p1 p2) <= snd (quadraticCurveMinMax p0 p1 p2))%Z.
Proof.
  unfold quadraticCurveMinMax.
  pose proof (SamplerFacts.locals_endpoints p0 p1 p2) as [Hlo Hhi].
  destruct (minMaxLocals p0 p1 p2) as [mn mx]. cbn [fst snd] in *.
  apply SamplerFacts.Math_round_mono.
  pose proof (Q.le_min_l p0 p2). pose proof (Q.le_max_l p0 p2). lra.
Qed.

(** X14: while the stroke width is at most the head size (the padding is not
    negative), the width and the height assigned to the canvas are not
    negative. *)
Theorem canvas_at_least_padding (s : Settings) :
  lineWidth s <= size s ->
  0 <= canvas_width (layout s) /\ 0 <= canvas_height (layout s).
Proof.
  intros Hw.
  pose proof (extent_ordered (p0x s) (p1x s) (p2x s)) as Hx.
  pose proof (extent_ordered (p0y s) (p1y s) (p2y s)) as Hy.
  rewrite Zle_Qle in Hx, Hy.
  unfold layout. cbn [canvas_width canvas_height].
  split; lra.
Qed.

Lemma canvas_at_least_padding_witness :
  exists el,
    fst (fst (render sampleProps (Some samplePage) (fst idle) (snd idle)))
      = Some el /\
    lineWidth (settings el) <= size (settings el) /\
    0 <= canvas_width (layout (settings el)) /\
    0 <= canvas_height (layout (settings el)).
Proof.
  eexists. split; [vm_compute; reflexivity |].
  split; [vm_compute; discriminate |].
  refine (canvas_at_least_padding _ _).
  vm_compute. discriminate.
Defined.

(** X15: with a whole stroke width (as the default 8) the canvas lies on the
    pixel grid: its left and top offsets, its width and its height are whole
    numbers, whatever fractions the anchors have. *)
Theorem canvas_on_pixel_grid
    (props : Props) (w : Window) (this : Instance) (host : Host)
    (el : CanvasElement) (k : Z) :
  fst (fst (render props (Some w) this host)) = Some el ->
  orDefault (width props) 8 == inject_Z k ->
  let l := layout (settings el) in
  exists a b c d : Z,
    style_left l == inject_Z a /\ style_top l == inject_Z b /\
    canvas_width l == inject_Z c /\ canvas_height l == inject_Z d.
Proof.
  intros Hel Hk l.
  destruct (LayoutFacts.render_settings props w this host el Hel)
    as [Hsize Hwidth].
  subst l. unfold layout.
  cbn [style_left style_top canvas_width canvas_height].
  rewrite Hsize, Hwidth.
  set (x := quadraticCurveMinMax (p0x (settings el)) (p1x (settings el))
              (p2x (settings el))).
  set (y := quadraticCurveMinMax (p0y (settings el)) (p1y (settings el))
              (p2y (settings el))).
  exists (fst x - (30 - k))%Z, (fst y - (30 - k))%Z,
         (snd x - fst x + 2 * (30 - k))%Z, (snd y - fst y + 2 * (30 - k))%Z.
  unfold Zminus.
  rewrite !inject_Z_plus, !inject_Z_mult, !inject_Z_opp, !inject_Z_plus,
    !inject_Z_opp.
  change (inject_Z 30) with 30. change (inject_Z 2) with 2.
  repeat split; lra.
Qed.

Lemma canvas_on_pixel_grid_witness :
  exists el,
    fst (fst (render sampleProps (Some samplePage) (fst idle) (snd idle)))
      = Some el /\
    orDefault (width sampleProps) 8 == inject_Z 8 /\
    exists a b c d : Z,
      style_left (layout (settings el)) == inject_Z a /\
      style_top (layout (settings el)) == inject_Z b /\
      canvas_width (layout (settings el)) == inject_Z c /\
      canvas_height (layout (settings el)) == inject_Z d.
Proof.
  eexists. split; [vm_compute; reflexivity |]. split; [reflexivity |].
  refine (canvas_on_pixel_grid sampleProps samplePage (fst idle) (snd idle)
            _ 8 _ _).
  - vm_compute. reflexivity.
  - reflexivity.
Defined.

End LayoutLaws.

(** ** Further laws of the retry timers *)

Module LifecycleLaws.
Import Renderer Lifecycle Notions Samples Measures.

Lemma tracked_render (props : Props) (window : option Window) (r : Run) :
  mounted r = true -> late r = [] -> pending (host r) = [] ->
  tracked (doRender props window r).
Proof.
  intros Hm Hl Hp. unfold tracked, doRender.
  pose proof (RenderFacts.render_pending_shape props window (this r) (host r))
    as H.
  destruct (render props window (this r) (host r)) as [[out this'] host'].
  cbn [mounted late Lifecycle.host Lifecycle.this].
  split; [exact Hm |]. split; [exact Hl |].
  destruct H as [(H & _) | (H & Ht & _)]; rewrite H, Hp.
  - left. reflexivity.
  - right. eexists. split; [reflexivity |]. exact Ht.
Qed.

Lemma clear_single (t : Timeout) (h : Host) :
  pending h = [t] -> pending (clearTimeout (handle t) h) = [].
Proof.
  intros H. unfold clearTimeout. cbn [pending]. rewrite H. cbn [filter].
  rewrite Pos.eqb_refl. reflexivity.
Qed.

Lemma tracked_elapse (r : Run) (id : Handle) (window : option Window) :
  tracked r -> tracked (step r (Elapse id window)).
Proof.
  intros (Hm & Hl & Hp). cbn [step].
  destruct (isPending id (host r)) eqn:Ep; [| exact (conj Hm (conj Hl Hp))].
  rewrite Hm.
  destruct Hp as [Hp | (t & Hp & Ht)].
  - unfold isPending in Ep. rewrite Hp in Ep. discriminate Ep.
  - unfold isPending in Ep. rewrite Hp in Ep. cbn [existsb] in Ep.
    rewrite orb_false_r in Ep. apply Pos.eqb_eq in Ep. subst id.
    apply tracked_render; cbn [mounted late Lifecycle.host];
      auto using clear_single.
Qed.

Lemma tracked_elapses (es : list Event) (r : Run) :
  forallb isElapse es = true -> tracked r -> tracked (fold_left step es r).
Proof.
  revert r. induction es as [| e es IH]; intros r Hes Hr; [exact Hr |].
  cbn [forallb] in Hes. apply andb_true_iff in Hes. destruct Hes as [He Hes].
  cbn [fold_left]. apply IH; [exact Hes |].
  destruct e as [p w | id w |]; try discriminate He.
  apply tracked_elapse. exact Hr.
Qed.

Lemma tracked_first_render (props : Props) (window : option Window) :
  tracked (step start (Render props window)).
Proof. cbn [step start mounted]. apply tracked_render; reflexivity. Qed.

Lemma finished_step (r : Run) (e : Event) : finished r -> step r e = r.
Proof.
  intros (Hm & _ & Hp & _).
  destruct e as [p w | id w |]; cbn [step]; rewrite ?Hm; try reflexivity.
  unfold isPending. rewrite Hp. reflexivity.
Qed.

Lemma finished_steps (es : list Event) (r : Run) :
  finished r -> fold_left step es r = r.
Proof.
  intros H. induction es as [| e es IH]; [reflexivity |].
  cbn [fold_left]. rewrite (finished_step r e H). exact IH.
Qed.

Lemma tracked_unmount (r : Run) : tracked r -> finished (step r Unmount).
Proof.
  intros (Hm & Hl & Hp). cbn [step]. rewrite Hm. unfold finished.
  cbn [mounted late Lifecycle.host output].
  repeat split; auto.
  unfold componentWillUnmount.
  destruct Hp as [Hp | (t & Hp & Ht)].
  - destruct (timer (this r)); [| exact Hp].
    unfold clearTimeout. cbn [pending]. rewrite Hp. reflexivity.
  - rewrite Ht. apply clear_single. exact Hp.
Qed.

(** X17: when the framework renders an instance once and every later render
    comes from its own timeout firing, at most one timeout is ever pending,
    and it is the one recorded in [this.timer]. *)
Theorem timer_driven_single
    (props : Props) (window : option Window) (es : list Event) :
  forallb isElapse es = true ->
  let r := run (Render props window :: es) in
  (List.length (pending (host r)) <= 1)%nat /\
  (forall t, In t (pending (host r)) -> timer (this r) = Some (handle t)).
Proof.
  intros Hes r.
  assert (H : tracked r).
  { subst r. unfold run. cbn [fold_left].
    apply tracked_elapses; [exact Hes | apply tracked_first_render]. }
  destruct H as (_ & _ & [Hp | (t & Hp & Ht)]); rewrite Hp.
  - split; [cbn; auto | intros t []].
  - split; [cbn; auto |]. intros t' [<- | []]. exact Ht.
Qed.

Lemma timer_driven_single_witness :
  let es := [Elapse 1%positive (Some emptyPage);
             Elapse 2%positive (Some fullPage)] in
  forallb isElapse es = true /\
  (List.length
     (pending (host (run (Render noProps (Some emptyPage) :: es)))) <= 1)%nat.
Proof.
  split; [reflexivity |].
  refine (proj1 (timer_driven_single noProps (Some emptyPage) _ _)).
  reflexivity.
Defined.

(** X18: such an instance is torn down cleanly: after the unmount no timeout
    is pending, and whatever happens afterwards no callback runs on the
    unmounted instance and nothing is scheduled again. *)
Theorem timer_driven_unmount_is_clean
    (props : Props) (window : option Window) (es es' : list Event) :
  forallb isElapse es = true ->
  let r := run (Render props window :: es ++ Unmount :: es') in
  pending (host r) = [] /\ late r = [] /\ mounted r = false /\ output r = None.
Proof.
  intros Hes r. subst r. unfold run. cbn [fold_left].
  rewrite fold_left_app. cbn [fold_left].
  assert (H : finished
                (step (fold_left step es (step start (Render props window)))
                   Unmount)).
  { apply tracked_unmount, tracked_elapses;
      [exact Hes | apply tracked_first_render]. }
  rewrite (finished_steps es' _ H).
  destruct H as (Hm & Hl & Hp & Ho). auto.
Qed.

Lemma timer_driven_unmount_is_clean_witness :
  let es := [Elapse 1%positive (Some emptyPage)] in
  let es' := [Elapse 2%positive (Some emptyPage);
              Render noProps (Some fullPage)] in
  forallb isElapse es = true /\
  pending (host (run (Render noProps (Some emptyPage)
                        :: es ++ Unmount :: es'))) = [] /\
  late (run (Render noProps (Some emptyPage) :: es ++ Unmount :: es')) = [].
Proof.
  split; [reflexivity |].
  pose proof (timer_driven_unmount_is_clean noProps (Some emptyPage)
                [Elapse 1%positive (Some emptyPage)]
                [Elapse 2%positive (Some emptyPage);
                 Render noProps (Some fullPage)] eq_refl) as (H1 & H2 & _).
  exact (conj H1 H2).
Defined.

(** With [dynamicUpdate] on, every pass in a browser schedules a timeout. *)
Lemma render_polls (props : Props) (w : Window) (this : Instance) (host : Host) :
  dynamicUpdate props = Some true ->
  let '(_, this', host') := render props (Some w) this host in
  pending host' = pending host ++ [{| handle := fresh host; delay := 200 |}] /\
  timer this' = Some (fresh host).
Proof.
  intros Hd. unfold render, isServerSide. rewrite Hd. cbn [orDefault].
  RenderLaws.render_cases props w; split; reflexivity.
Qed.

Lemma polling_render (props : Props) (w : Window) (r : Run) :
  dynamicUpdate props = Some true ->
  mounted r = true -> pending (host r) = [] ->
  polling props (doRender props (Some w) r).
Proof.
  intros Hd Hm Hp. unfold polling, doRender.
  pose proof (render_polls props w (this r) (host r) Hd) as H.
  destruct (render props (Some w) (this r) (host r)) as [[out this'] host'].
  cbn [mounted current Lifecycle.host Lifecycle.this].
  destruct H as [H Ht]. rewrite H, Hp.
  split; [exact Hm |]. split; [reflexivity |].
  eexists. split; [reflexivity |]. split; [reflexivity | exact Ht].
Qed.

Lemma polling_elapses (props : Props) (es : list Event) (r : Run) :
  dynamicUpdate props = Some true ->
  forallb isBrowserElapse es = true ->
  polling props r -> polling props (fold_left step es r).
Proof.
  intros Hd. revert r.
  induction es as [| e es IH]; intros r Hes Hr; [exact Hr |].
  cbn [forallb] in Hes. apply andb_true_iff in Hes. destruct Hes as [He Hes].
  cbn [fold_left]. apply IH; [exact Hes |].
  destruct e as [p w | id [w |] |]; try discriminate He.
  destruct Hr as (Hm & Hc & t & Hp & Hdelay & Ht). cbn [step].
  destruct (isPending id (host r)) eqn:Ep.
  - unfold isPending in Ep. rewrite Hp in Ep. cbn [existsb] in Ep.
    rewrite orb_false_r in Ep. apply Pos.eqb_eq in Ep. subst id.
    rewrite Hm, Hc.
    apply polling_render; cbn [mounted Lifecycle.host];
      auto using clear_single.
  - split; [exact Hm |]. split; [exact Hc |]. exists t. auto.
Qed.

(** X19: with [dynamicUpdate] on, polling never stops while the instance is
    mounted: after the first render and after every timeout that fires in a
    browser, exactly one timeout is pending again, with delay 200 and
    recorded in [this.timer], whether or not the anchors are found or the
    arrow is hidden. *)
Theorem dynamic_update_keeps_polling
    (props : Props) (w : Window) (es : list Event) :
  dynamicUpdate props = Some true ->
  forallb isBrowserElapse es = true ->
  let r := run (Render props (Some w) :: es) in
  exists t, pending (host r) = [t] /\ delay t = 200%Z /\
            timer (this r) = Some (handle t).
Proof.
  intros Hd Hes r.
  assert (H : polling props r).
  { subst r. unfold run. cbn [fold_left].
    apply polling_elapses; [exact Hd | exact Hes |].
    cbn [step start mounted]. apply polling_render; auto. }
  destruct H as (_ & _ & H). exact H.
Qed.

Lemma dynamic_update_keeps_polling_witness :
  let props :=
    {| fromSelector := None; toSelector := None; fromOffsetX := None;
       fromOffsetY := None; toOffsetX := None; toOffsetY := None;
       middleX := None; middleY := None; width := None; color := None;
       hideIfFoundSelector := None; debugLine := None;
       dynamicUpdate := Some true; zIndex := None |} in
  let es := [Elapse 1%positive (Some fullPage);
             Elapse 2%positive (Some emptyPage)] in
  dynamicUpdate props = Some true /\
  forallb isBrowserElapse es = true /\
  exists t, pending (host (run (Render props (Some fullPage) :: es))) = [t] /\
            delay t = 200%Z /\
            timer (this (run (Render props (Some fullPage) :: es)))
              = Some (handle t).
Proof.
  intros props es. split; [reflexivity |]. split; [reflexivity |].
  apply (dynamic_update_keeps_polling props fullPage es); reflexivity.
Defined.

Lemma renders_add (es : list Event) (r : Run) :
  forallb isRender es = true -> mounted r = true ->
  List.length (pending (host (fold_left step es r)))
  = (List.length (pending (host r)) + List.length (filter scheduling es))%nat.
Proof.
  revert r. induction es as [| e es IH]; intros r Hes Hm.
  - cbn. auto with arith.
  - cbn [forallb] in Hes. apply andb_true_iff in Hes. destruct Hes as [He Hes].
    destruct e as [p w | id w |]; try discriminate He.
    cbn [fold_left filter scheduling step]. rewrite Hm.
    pose proof (RenderLaws.render_timers p w (this r) (host r)) as H.
    assert (Hm' : mounted (doRender p w r) = true).
    { unfold doRender.
      destruct (render p w (this r) (host r)) as [[out this'] host'].
      exact Hm. }
    rewrite (IH _ Hes Hm'). unfold doRender.
    destruct (render p w (this r) (host r)) as [[out this'] host'].
    cbn [Lifecycle.host]. destruct H as [H _]. rewrite H.
    destruct (schedules p w); cbn [setTimeout snd pending List.length].
    + rewrite length_app. cbn [List.length]. rewrite <- !plus_n_Sm, <- plus_n_O.
      reflexivity.
    + reflexivity.
Qed.

(** X24: a render never clears a timeout (the test of [this.timer] comes
    after the field is reset): over any sequence of renders by the framework,
    with no timeout firing in between, the number of pending timeouts is the
    number of passes that scheduled one. *)
Theorem renders_never_clear (es : list Event) :
  forallb isRender es = true ->
  List.length (pending (host (run es))) = List.length (filter scheduling es).
Proof.
  intros Hes. unfold run. rewrite (renders_add es start Hes eq_refl).
  reflexivity.
Qed.

Lemma renders_never_clear_witness :
  let es := [Render noProps (Some emptyPage); Render noProps (Some fullPage);
             Render noProps (Some emptyPage)] in
  forallb isRender es = true /\
  List.length (pending (host (run es))) = 2%nat.
Proof.
  split; [reflexivity |].
  exact (renders_never_clear
           [Render noProps (Some emptyPage); Render noProps (Some fullPage);
            Render noProps (Some emptyPage)] eq_refl).
Defined.

End LifecycleLaws.

(** ** Further laws of the drawing *)

Module CanvasLaws.
Import Canvas Notions CanvasFacts.
Local Open Scope R_scope.

(** X20: the drawing does not restore the stroke style: after it the context
    has the arrow's colour and width and round joins and caps, whatever it
    had before. *)
Theorem draw_final_context (el : Renderer.CanvasElement) (ctx : Context) :
  let c := draw el ctx in
  strokeStyle c = Renderer.strokeStyle (Renderer.settings el) /\
  lineWidth c = Q2R (Renderer.lineWidth (Renderer.settings el)) /\
  lineJoin c = "round"%string /\ lineCap c = "round"%string.
Proof.
  cbv zeta. unfold draw. destruct (Renderer.canvas_debugLine el);
    repeat split; reflexivity.
Qed.


End CanvasLaws.

(** ** The canvas as it is sized, and the stroked curve *)

Module CanvasBox.
Import Sampler Renderer Notions Samples Measures.
Local Open Scope Q_scope.

(** A number between 0 and 2^31 is truncated to its floor. *)
Lemma toUnsignedLong_floor (dflt : Z) (v : Q) :
  0 <= v -> v < 2147483648 -> toUnsignedLong dflt v = Qfloor v.
Proof.
  intros H0 H1. unfold toUnsignedLong.
  assert (Hn : (0 <= Qnum v)%Z).
  { destruct v as [n d]. unfold Qle in H0. cbn in *. lia. }
  assert (Hq : (Z.quot (Qnum v) (Zpos (Qden v)) = Qfloor v)%Z).
  { destruct v as [n d]. cbn [Qnum Qden Qfloor] in *.
    apply Z.quot_div_nonneg; lia. }
  rewrite Hq.
  assert (Hlo : (0 <= Qfloor v)%Z).
  { rewrite <- (Qfloor_Z 0). apply Qfloor_resp_le. exact H0. }
  assert (Hhi : (Qfloor v < 2147483648)%Z).
  { rewrite Zlt_Qlt. pose proof (Qfloor_le v).
    change (inject_Z 2147483648) with 2147483648. lra. }
  rewrite Z.mod_small by lia.
  destruct (Z.leb_spec (Qfloor v) 2147483647); [reflexivity | lia].
Qed.

End CanvasBox.

(** ** Rounded arithmetic: the end points of the curve and the rotations of
       the arrowhead *)

Module RoundingFacts.
Import Rounded.
Local Open Scope Q_scope.

(** *** Rounding to 53 bits is a rounding *)

Lemma pow2_pos (k : Z) : 0 < 2 ^ k.
Proof. apply Qpower_0_lt. reflexivity. Qed.

Lemma pow2_succ (k : Z) : 2 ^ (k + 1) == 2 * 2 ^ k.
Proof. rewrite Qpower_plus by discriminate. rewrite Qpower_1_r. ring. Qed.

Lemma pow2_pred (k : Z) : 2 ^ (k - 1) == 2 ^ k * (1 # 2).
Proof.
  unfold Z.sub. rewrite Qpower_plus by discriminate.
  change (2 ^ (-1)) with (/ 2). reflexivity.
Qed.

Lemma ilog2_spec (x : Q) : 0 < x -> 2 ^ ilog2 x <= x /\ x < 2 ^ (ilog2 x + 1).
Proof.
  intros Hx. destruct x as [n d].
  assert (Hn : (0 < n)%Z) by (unfold Qlt in Hx; simpl in Hx; lia).
  unfold ilog2. cbn [Qnum Qden].
  set (a := Z.log2 n). set (b := Z.log2 (Zpos d)).
  assert (Ha : (0 <= a)%Z) by apply Z.log2_nonneg.
  assert (Hb : (0 <= b)%Z) by apply Z.log2_nonneg.
  destruct (Z.log2_spec n Hn) as [A1 A2]. fold a in A1, A2.
  destruct (Z.log2_spec (Zpos d) eq_refl) as [B1 B2]. fold b in B1, B2.
  assert (EA : inject_Z (2 ^ a) == 2 ^ a) by (apply (Zpower_Qpower 2 a Ha)).
  assert (EB : inject_Z (2 ^ b) == 2 ^ b) by (apply (Zpower_Qpower 2 b Hb)).
  assert (EA' : inject_Z (2 ^ Z.succ a) == 2 * 2 ^ a).
  { rewrite (Zpower_Qpower 2 (Z.succ a)) by lia. unfold Z.succ.
    apply pow2_succ. }
  assert (EB' : inject_Z (2 ^ Z.succ b) == 2 * 2 ^ b).
  { rewrite (Zpower_Qpower 2 (Z.succ b)) by lia. unfold Z.succ.
    apply pow2_succ. }
  assert (QA1 : 2 ^ a <= inject_Z n)
    by (rewrite <- EA; rewrite <- Zle_Qle; exact A1).
  assert (QA2 : inject_Z n < 2 * 2 ^ a)
    by (rewrite <- EA'; rewrite <- Zlt_Qlt; exact A2).
  assert (QB1 : 2 ^ b <= inject_Z (Zpos d))
    by (rewrite <- EB; rewrite <- Zle_Qle; exact B1).
  assert (QB2 : inject_Z (Zpos d) < 2 * 2 ^ b)
    by (rewrite <- EB'; rewrite <- Zlt_Qlt; exact B2).
  assert (PA := pow2_pos a). assert (PB := pow2_pos b).
  assert (PK := pow2_pos (a - b)).
  assert (EK : 2 ^ (a - b) * 2 ^ b == 2 ^ a).
  { rewrite <- Qpower_plus by discriminate.
    replace (a - b + b)%Z with a by lia. reflexivity. }
  assert (EX : (n # d) * inject_Z (Zpos d) == inject_Z n).
  { unfold Qeq, Qmult, inject_Z. simpl. rewrite Pos.mul_1_r. lia. }
  set (x := n # d) in *. set (D := inject_Z (Zpos d)) in *.
  set (N := inject_Z n) in *.
  set (A := 2 ^ a) in *. set (B := 2 ^ b) in *.
  destruct (Qle_bool (2 ^ (a - b)) x) eqn:E.
  - apply Qle_bool_iff in E. split; [exact E|].
    rewrite pow2_succ. set (P := 2 ^ (a - b)) in *. clearbody x D N A B P.
    nra.
  - assert (E' : x < 2 ^ (a - b)).
    { apply Qnot_le_lt. intros H. apply Qle_bool_iff in H. congruence. }
    replace (a - b - 1 + 1)%Z with (a - b)%Z by lia.
    split; [|exact E'].
    rewrite pow2_pred. set (P := 2 ^ (a - b)) in *. clearbody x D N A B P.
    nra.
Qed.

Lemma ilog2_unique (x : Q) (k : Z) :
  2 ^ k <= x -> x < 2 ^ (k + 1) -> ilog2 x = k.
Proof.
  intros H1 H2.
  assert (Hx : 0 < x) by (pose proof (pow2_pos k); lra).
  destruct (ilog2_spec x Hx) as [S1 S2].
  assert (L1 : (k < ilog2 x + 1)%Z).
  { apply (Qpower_lt_compat_l_inv 2); [|reflexivity]. lra. }
  assert (L2 : (ilog2 x < k + 1)%Z).
  { apply (Qpower_lt_compat_l_inv 2); [|reflexivity]. lra. }
  lia.
Qed.

Lemma ilog2_proper (x y : Q) : 0 < x -> x == y -> ilog2 x = ilog2 y.
Proof.
  intros Hx E. symmetry. destruct (ilog2_spec x Hx) as [S1 S2].
  apply ilog2_unique; rewrite <- E; assumption.
Qed.

Lemma roundEven_cases (y : Q) :
  roundEven y = Qfloor y \/ roundEven y = (Qfloor y + 1)%Z.
Proof.
  unfold roundEven. destruct (Qcompare _ _); [destruct (Z.even _)|..]; auto.
Qed.

Lemma roundEven_near (y : Q) : Qabs (inject_Z (roundEven y) - y) <= 1 # 2.
Proof.
  pose proof (Qfloor_le y) as F1. pose proof (Qlt_floor y) as F2.
  rewrite inject_Z_plus in F2. change (inject_Z 1) with 1 in F2.
  apply Qabs_Qle_condition. unfold roundEven.
  destruct (Qcompare_spec (y - inject_Z (Qfloor y)) (1 # 2)) as [E|E|E].
  - destruct (Z.even _).
    + lra.
    + rewrite inject_Z_plus. change (inject_Z 1) with 1. lra.
  - lra.
  - rewrite inject_Z_plus. change (inject_Z 1) with 1. lra.
Qed.

Lemma roundEven_proper (y y' : Q) : y == y' -> roundEven y = roundEven y'.
Proof.
  intros E. unfold roundEven.
  rewrite (Qfloor_comp _ _ E).
  assert (C : Qcompare (y - inject_Z (Qfloor y')) (1 # 2)
              = Qcompare (y' - inject_Z (Qfloor y')) (1 # 2)).
  { apply Qcompare_comp; [rewrite E|]; reflexivity. }
  rewrite C. reflexivity.
Qed.

Lemma roundEven_integer (z : Z) : roundEven (inject_Z z) = z.
Proof.
  unfold roundEven. rewrite Qfloor_Z.
  assert (E : inject_Z z - inject_Z z == 0) by ring.
  rewrite (Qcompare_comp _ _ E _ _ (Qeq_refl (1 # 2))). reflexivity.
Qed.

Lemma roundEven_ge (a : Z) (y : Q) : inject_Z a <= y -> (a <= roundEven y)%Z.
Proof.
  intros H. assert (F : (a <= Qfloor y)%Z).
  { rewrite <- (Qfloor_Z a). apply Qfloor_resp_le. exact H. }
  destruct (roundEven_cases y) as [-> | ->]; lia.
Qed.

Lemma roundEven_le (b : Z) (y : Q) : y <= inject_Z b -> (roundEven y <= b)%Z.
Proof.
  intros H.
  destruct (Qlt_le_dec y (inject_Z b)) as [L|L].
  - assert (F : (Qfloor y < b)%Z).
    { apply Z.lt_nge. intros C. rewrite Zle_Qle in C.
      pose proof (Qfloor_le y). lra. }
    destruct (roundEven_cases y) as [-> | ->]; lia.
  - assert (E : y == inject_Z b) by lra.
    rewrite (roundEven_proper _ _ E), roundEven_integer. lia.
Qed.

Section Positive.

Variable x : Q.
Hypothesis Hx : 0 < x.

Lemma scaled_range :
  2 ^ 52 <= x / 2 ^ (ilog2 x - 52) /\ x / 2 ^ (ilog2 x - 52) < 2 ^ 53.
Proof.
  set (e := (ilog2 x - 52)%Z). set (y := x / 2 ^ e).
  destruct (ilog2_spec x Hx) as [S1 S2].
  assert (P := pow2_pos e).
  assert (E1 : 2 ^ ilog2 x == 2 ^ 52 * 2 ^ e).
  { rewrite <- Qpower_plus by discriminate. unfold e.
    replace (52 + (ilog2 x - 52))%Z with (ilog2 x) by lia. reflexivity. }
  assert (E2 : 2 ^ (ilog2 x + 1) == 2 ^ 53 * 2 ^ e).
  { rewrite <- Qpower_plus by discriminate. unfold e.
    replace (53 + (ilog2 x - 52))%Z with (ilog2 x + 1)%Z by lia. reflexivity. }
  rewrite E1 in S1. rewrite E2 in S2.
  assert (EY : y * 2 ^ e == x) by (unfold y; field; lra).
  set (c52 := 2 ^ 52) in *. set (c53 := 2 ^ 53) in *.
  assert (0 < c52) by reflexivity. assert (0 < c53) by reflexivity.
  set (pe := 2 ^ e) in *. clearbody pe y c52 c53.
  split; nra.
Qed.

Lemma mantissa_range :
  (2 ^ 52 <= roundEven (x / 2 ^ (ilog2 x - 52)) <= 2 ^ 53)%Z.
Proof.
  destruct scaled_range as [S1 S2]. split.
  - apply roundEven_ge. exact S1.
  - apply roundEven_le. apply Qlt_le_weak. exact S2.
Qed.

Lemma roundPos_eq :
  roundPos x
  = inject_Z (roundEven (x / 2 ^ (ilog2 x - 52))) * 2 ^ (ilog2 x - 52).
Proof. reflexivity. Qed.

Lemma roundPos_error : Qabs (roundPos x - x) <= u53 * x.
Proof.
  rewrite roundPos_eq.
  destruct scaled_range as [S1 S2].
  set (e := (ilog2 x - 52)%Z) in *. set (y := x / 2 ^ e) in *.
  set (m := roundEven y).
  assert (P := pow2_pos e).
  assert (EY : y * 2 ^ e == x) by (unfold y; field; lra).
  pose proof (roundEven_near y) as N. fold m in N.
  apply Qabs_Qle_condition in N. apply Qabs_Qle_condition.
  unfold u53.
  assert (U : 2 ^ (-53) * 2 ^ 52 == 1 # 2) by reflexivity.
  assert (U0 : 0 < 2 ^ (-53)) by reflexivity.
  set (c52 := 2 ^ 52) in *. set (uu := 2 ^ (-53)) in *.
  set (pe := 2 ^ e) in *. set (M := inject_Z m) in *.
  clearbody pe y c52 uu M. rewrite <- EY.
  assert (UP : 0 < uu * pe) by nra.
  assert (K : uu * pe * c52 <= uu * pe * y) by nra.
  assert (K' : uu * pe * c52 == (1 # 2) * pe) by (rewrite <- U; ring).
  destruct N as [N1 N2].
  assert (K1 : (M - y) * pe <= (1 # 2) * pe).
  { apply Qmult_le_compat_r; lra. }
  assert (K2 : (- (1 # 2)) * pe <= (M - y) * pe).
  { apply Qmult_le_compat_r; lra. }
  split; lra.
Qed.

Lemma roundPos_pos : 0 < roundPos x.
Proof.
  rewrite roundPos_eq. destruct mantissa_range as [M1 _].
  set (e := (ilog2 x - 52)%Z) in *.
  set (m := roundEven (x / 2 ^ e)) in *.
  assert (P := pow2_pos e).
  assert (0 < inject_Z m).
  { change 0 with (inject_Z 0). rewrite <- Zlt_Qlt.
    assert (0 < 2 ^ 52)%Z by reflexivity. lia. }
  set (pe := 2 ^ e) in *. set (M := inject_Z m) in *. clearbody pe M.
  nra.
Qed.

End Positive.

Lemma roundPos_proper (x x' : Q) :
  0 < x -> x == x' -> roundPos x == roundPos x'.
Proof.
  intros Hx E. unfold roundPos.
  rewrite <- (ilog2_proper x x' Hx E).
  assert (E' : x / 2 ^ (ilog2 x - 52) == x' / 2 ^ (ilog2 x - 52)).
  { apply Qmult_comp; [exact E|reflexivity]. }
  rewrite (roundEven_proper _ _ E'). reflexivity.
Qed.

(** Every [M * 2 ^ E] with M of 53 bits is left alone. *)
Lemma roundPos_representable (M E : Z) :
  (2 ^ 52 <= M <= 2 ^ 53)%Z ->
  roundPos (inject_Z M * 2 ^ E) == inject_Z M * 2 ^ E.
Proof.
  intros [M1 M2].
  assert (P := pow2_pos E).
  destruct (Z.eq_dec M (2 ^ 53)) as [->|NE].
  - assert (EQ : inject_Z (2 ^ 53) * 2 ^ E == 2 ^ (E + 53)).
    { rewrite Qpower_plus by discriminate.
      change (inject_Z (2 ^ 53)) with (2 ^ 53). ring. }
    assert (L : ilog2 (inject_Z (2 ^ 53) * 2 ^ E) = (E + 53)%Z).
    { apply ilog2_unique; rewrite EQ; [apply Qle_refl|].
      apply Qpower_lt_compat_l; [lia|reflexivity]. }
    unfold roundPos. rewrite L.
    replace (E + 53 - 52)%Z with (E + 1)%Z by lia.
    assert (Y : inject_Z (2 ^ 53) * 2 ^ E / 2 ^ (E + 1) == inject_Z (2 ^ 52)).
    { rewrite pow2_succ.
      change (inject_Z (2 ^ 53)) with (2 * inject_Z (2 ^ 52)).
      field. lra. }
    rewrite (roundEven_proper _ _ Y), roundEven_integer.
    rewrite pow2_succ.
    change (inject_Z (2 ^ 53)) with (2 * inject_Z (2 ^ 52)). ring.
  - assert (L : ilog2 (inject_Z M * 2 ^ E) = (E + 52)%Z).
    { assert (Q1 : inject_Z (2 ^ 52) <= inject_Z M)
        by (rewrite <- Zle_Qle; exact M1).
      assert (Q2 : inject_Z M < inject_Z (2 ^ 53))
        by (rewrite <- Zlt_Qlt; lia).
      apply ilog2_unique.
      - rewrite Qpower_plus by discriminate.
        change (2 ^ 52) with (inject_Z (2 ^ 52)).
        set (c := inject_Z (2 ^ 52)) in *. set (pe := 2 ^ E) in *.
        set (IM := inject_Z M) in *. clearbody c pe IM. nra.
      - replace (E + 52 + 1)%Z with (E + 53)%Z by lia.
        rewrite Qpower_plus by discriminate.
        change (2 ^ 53) with (inject_Z (2 ^ 53)).
        set (c := inject_Z (2 ^ 53)) in *. set (pe := 2 ^ E) in *.
        set (IM := inject_Z M) in *. clearbody c pe IM. nra. }
    unfold roundPos. rewrite L.
    replace (E + 52 - 52)%Z with E by lia.
    assert (Y : inject_Z M * 2 ^ E / 2 ^ E == inject_Z M) by (field; lra).
    rewrite (roundEven_proper _ _ Y), roundEven_integer. reflexivity.
Qed.

Lemma roundPos_idem (x : Q) : 0 < x -> roundPos (roundPos x) == roundPos x.
Proof.
  intros Hx. rewrite (roundPos_eq x).
  apply roundPos_representable. apply mantissa_range. exact Hx.
Qed.

Lemma positive_num (x : Q) : 0 < x -> exists p, Qnum x = Zpos p.
Proof.
  destruct x as [[|p|p] d]; intros H; try discriminate H. exists p. reflexivity.
Qed.

Lemma negative_num (x : Q) : x < 0 -> exists p, Qnum x = Zneg p.
Proof.
  destruct x as [[|p|p] d]; intros H; try discriminate H. exists p. reflexivity.
Qed.

Lemma zero_num (x : Q) : x == 0 -> Qnum x = 0%Z.
Proof.
  destruct x as [[|p|p] d]; intros H; try discriminate H. reflexivity.
Qed.

Lemma round53_pos (x : Q) : 0 < x -> round53 x = roundPos x.
Proof.
  intros H. unfold round53. destruct (positive_num x H) as [p ->]. reflexivity.
Qed.

Lemma round53_neg (x : Q) : x < 0 -> round53 x = - roundPos (- x).
Proof.
  intros H. unfold round53. destruct (negative_num x H) as [p ->]. reflexivity.
Qed.

Lemma round53_zero (x : Q) : x == 0 -> round53 x = 0.
Proof. intros H. unfold round53. rewrite (zero_num x H). reflexivity. Qed.

(** Round to nearest at 53 bits respects equality, leaves 1 and its own
    results alone, and has relative error at most [2 ^ (-53)]. *)
Lemma round53_rounding : Rounding u53 round53.
Proof.
  split.
  - intros x y E.
    destruct (Q_dec x 0) as [[L|G]|Z].
    + rewrite (round53_neg x L), (round53_neg y) by (rewrite <- E; exact L).
      apply Qopp_comp. apply roundPos_proper; [lra|]. rewrite E. reflexivity.
    + rewrite (round53_pos x G), (round53_pos y) by (rewrite <- E; exact G).
      apply roundPos_proper; assumption.
    + rewrite (round53_zero x Z), (round53_zero y) by (rewrite <- E; exact Z).
      reflexivity.
  - reflexivity.
  - intros x.
    destruct (Q_dec x 0) as [[L|G]|Z].
    + assert (Hx : 0 < - x) by lra.
      rewrite (round53_neg x L).
      pose proof (roundPos_pos (- x) Hx) as P.
      rewrite round53_neg by lra.
      apply Qopp_comp.
      rewrite <- (roundPos_idem (- x) Hx) at 2.
      apply roundPos_proper; [lra|ring].
    + rewrite (round53_pos x G).
      rewrite round53_pos by (apply roundPos_pos; exact G).
      apply roundPos_idem. exact G.
    + rewrite (round53_zero x Z). reflexivity.
  - intros x.
    destruct (Q_dec x 0) as [[L|G]|Z].
    + assert (Hx : 0 < - x) by lra.
      rewrite (round53_neg x L).
      pose proof (roundPos_error (- x) Hx) as E.
      rewrite (Qabs_neg x) by lra.
      apply Qabs_Qle_condition in E. apply Qabs_Qle_condition.
      set (r := roundPos (- x)) in *. clearbody r. split; lra.
    + rewrite (round53_pos x G). rewrite (Qabs_pos x) by lra.
      apply roundPos_error. exact G.
    + rewrite (round53_zero x Z).
      assert (E : 0 - x == 0) by lra. rewrite E, Z.
      assert (U0 : 0 < u53) by reflexivity. unfold Qabs; simpl. lra.
Qed.

(** *** What any rounding gives *)

Section Laws.

Variable u : Q.
Variable rnd : Q -> Q.
Hypothesis H : Rounding u rnd.

Lemma unit_nonneg : 0 <= u.
Proof.
  pose proof (rnd_error u rnd H 1) as E.
  pose proof (Qabs_nonneg (rnd 1 - 1)) as N.
  change (Qabs 1) with 1 in E. lra.
Qed.

Lemma rnd_zero : rnd 0 == 0.
Proof.
  pose proof (rnd_error u rnd H 0) as E.
  change (Qabs 0) with 0 in E.
  assert (E' : Qabs (rnd 0 - 0) <= 0) by lra.
  apply Qabs_Qle_condition in E'. lra.
Qed.

Lemma rnd_eq (x y : Q) : x == y -> rnd x == rnd y.
Proof. apply (rnd_proper u rnd H). Qed.

Lemma rnd_near (x : Q) : Qabs (rnd x - x) <= u * Qabs x.
Proof. apply (rnd_error u rnd H). Qed.

Lemma mul_one_one : mul rnd 1 1 == 1.
Proof.
  unfold mul. rewrite (rnd_eq (1 * 1) 1) by ring. apply (rnd_one u rnd H).
Qed.

Lemma mul_zero_zero : mul rnd 0 0 == 0.
Proof. unfold mul. rewrite (rnd_eq (0 * 0) 0) by ring. apply rnd_zero. Qed.

(** A product by a factor that came out as 1 is the other factor, if that is
    a result of the rounding. *)
Lemma mul_by_one (a x : Q) : a == 1 -> mul rnd a (rnd x) == rnd x.
Proof.
  intros E. unfold mul.
  rewrite (rnd_eq (a * rnd x) (rnd x)) by (rewrite E; ring).
  apply (rnd_idem u rnd H).
Qed.

Lemma mul_by_zero (a x : Q) : a == 0 -> mul rnd a x == 0.
Proof.
  intros E. unfold mul.
  rewrite (rnd_eq (a * x) 0) by (rewrite E; ring).
  apply rnd_zero.
Qed.

Lemma bezier_start (p0 p1 p2 : Q) :
  bezier rnd p0 p1 p2 0 == rnd (p1 + rnd (p0 - p1)).
Proof.
  unfold bezier.
  assert (S1 : sub rnd 1 0 == 1).
  { unfold sub. rewrite (rnd_eq (1 - 0) 1) by ring. apply (rnd_one u rnd H). }
  assert (M1 : mul rnd (sub rnd 1 0) (sub rnd 1 0) == 1).
  { unfold mul.
    rewrite (rnd_eq (sub rnd 1 0 * sub rnd 1 0) 1) by (rewrite S1; ring).
    apply (rnd_one u rnd H). }
  assert (M2 : mul rnd (mul rnd (sub rnd 1 0) (sub rnd 1 0)) (sub rnd p0 p1)
               == rnd (p0 - p1)).
  { apply mul_by_one. exact M1. }
  assert (M3 : mul rnd (mul rnd 0 0) (sub rnd p2 p1) == 0).
  { apply mul_by_zero. apply mul_zero_zero. }
  unfold add at 1.
  rewrite (rnd_eq _ (add rnd p1 (rnd (p0 - p1)))).
  - unfold add. apply (rnd_idem u rnd H).
  - rewrite M3. unfold add at 1.
    rewrite (rnd_eq _ (p1 + rnd (p0 - p1))) by (rewrite M2; reflexivity).
    unfold add. ring.
Qed.

Lemma bezier_finish (p0 p1 p2 : Q) :
  rnd p1 == p1 -> bezier rnd p0 p1 p2 1 == rnd (p1 + rnd (p2 - p1)).
Proof.
  intros R1. unfold bezier.
  assert (S1 : sub rnd 1 1 == 0).
  { unfold sub. rewrite (rnd_eq (1 - 1) 0) by ring. apply rnd_zero. }
  assert (M1 : mul rnd (sub rnd 1 1) (sub rnd 1 1) == 0).
  { apply mul_by_zero. exact S1. }
  assert (M2 : mul rnd (mul rnd (sub rnd 1 1) (sub rnd 1 1)) (sub rnd p0 p1)
               == 0).
  { apply mul_by_zero. exact M1. }
  assert (M3 : mul rnd (mul rnd 1 1) (sub rnd p2 p1) == rnd (p2 - p1)).
  { apply mul_by_one. apply mul_one_one. }
  assert (A1 : add rnd p1
                 (mul rnd (mul rnd (sub rnd 1 1) (sub rnd 1 1)) (sub rnd p0 p1))
               == p1).
  { unfold add at 1. rewrite (rnd_eq _ p1) by (rewrite M2; ring). exact R1. }
  unfold add at 1.
  apply rnd_eq. rewrite A1, M3. reflexivity.
Qed.

(** The two roundings on the way from a and b to [rnd (a + rnd (b - a))]. *)
Lemma two_roundings (a b : Q) :
  Qabs (rnd (a + rnd (b - a)) - b) <= u * (1 + u) * Qabs (b - a) + u * Qabs b.
Proof.
  pose proof unit_nonneg as U.
  pose proof (rnd_near (b - a)) as E1.
  pose proof (rnd_near (a + rnd (b - a))) as E2.
  set (d' := rnd (b - a)) in *.
  set (r := rnd (a + d')) in *.
  assert (T1 : Qabs (a + d') <= Qabs b + Qabs (d' - (b - a))).
  { setoid_replace (a + d') with (b + (d' - (b - a))) by ring.
    apply Qabs_triangle. }
  assert (T2 : Qabs (r - b) <= Qabs (r - (a + d')) + Qabs (d' - (b - a))).
  { setoid_replace (r - b) with ((r - (a + d')) + (d' - (b - a))) by ring.
    apply Qabs_triangle. }
  pose proof (Qabs_nonneg (b - a)) as N1.
  pose proof (Qabs_nonneg b) as N2.
  pose proof (Qabs_nonneg (d' - (b - a))) as N3.
  set (D := Qabs (b - a)) in *. set (B := Qabs b) in *.
  set (X1 := Qabs (d' - (b - a))) in *. set (X2 := Qabs (r - (a + d'))) in *.
  set (S := Qabs (a + d')) in *. set (G := Qabs (r - b)) in *.
  clearbody D B X1 X2 S G.
  assert (K1 : u * S <= u * (B + X1)) by nra.
  assert (K2 : u * X1 <= u * (u * D)) by nra.
  nra.
Qed.


End Laws.

(** *** The computed end points *)

(** The binary64 operations and [round53] agree on what the examples below
    compute. *)
Example binary64_rounds_to_53_bits :
  Binary64.value (PrimFloat.add Binary64.tenth (Binary64.of_Z 1))
    == round53 (Binary64.value Binary64.tenth + 1) /\
  Binary64.value (PrimFloat.sub (Binary64.of_Z 1) Binary64.tenth)
    == round53 (1 - Binary64.value Binary64.tenth) /\
  Binary64.value (Binary64.bezier Binary64.tenth Binary64.fourTenths Binary64.tenth
       (Binary64.of_Z 0))
    == bezier round53 (Binary64.value Binary64.tenth)
         (Binary64.value Binary64.fourTenths)
         (Binary64.value Binary64.tenth) 0 /\
  Binary64.value (Binary64.bezier Binary64.tenth Binary64.fourTenths Binary64.tenth
       (Binary64.of_Z 1))
    == bezier round53 (Binary64.value Binary64.tenth)
         (Binary64.value Binary64.fourTenths)
         (Binary64.value Binary64.tenth) 1.
Proof. vm_compute. repeat split; reflexivity. Qed.

(** C6, as the claim states it, fails on the numbers of the program: with
    p0 = p2 = 0.1 and p1 = 0.4 the value at parameter 0 is below 0.1 by
    [2 ^ (-55)], because the difference p0 - p1 is rounded and the sum with
    p1 is rounded again. *)
Lemma binary64_start_point_is_missed :
  PrimFloat.eqb
    (Binary64.bezier Binary64.tenth Binary64.fourTenths Binary64.tenth
       (Binary64.of_Z 0))
    Binary64.tenth = false /\
  Binary64.value
    (Binary64.bezier Binary64.tenth Binary64.fourTenths Binary64.tenth
       (Binary64.of_Z 0))
  == Binary64.value Binary64.tenth - 2 ^ (-55).
Proof. vm_compute. split; reflexivity. Qed.

(** C6, amended: with every operation rounded, [bezier] at parameter 0 is
    the rounded sum of p1 and the rounded difference p0 - p1, and at
    parameter 1 the rounded sum of p1 and the rounded difference p2 - p1.
    That is p0, respectively p2, whenever the difference is exact, and in
    general it is within [u * (1 + u) * |p0 - p1| + u * |p0|] of p0,
    respectively within [u * (1 + u) * |p2 - p1| + u * |p2|] of p2. *)
Theorem endpoints_up_to_rounding
    (u : Q) (rnd : Q -> Q) (p0 p1 p2 : Q) :
  Rounding u rnd ->
  rnd p0 == p0 -> rnd p1 == p1 -> rnd p2 == p2 ->
  bezier rnd p0 p1 p2 0 == rnd (p1 + rnd (p0 - p1)) /\
  bezier rnd p0 p1 p2 1 == rnd (p1 + rnd (p2 - p1)) /\
  (rnd (p0 - p1) == p0 - p1 -> bezier rnd p0 p1 p2 0 == p0) /\
  (rnd (p2 - p1) == p2 - p1 -> bezier rnd p0 p1 p2 1 == p2) /\
  Qabs (bezier rnd p0 p1 p2 0 - p0)
    <= u * (1 + u) * Qabs (p0 - p1) + u * Qabs p0 /\
  Qabs (bezier rnd p0 p1 p2 1 - p2)
    <= u * (1 + u) * Qabs (p2 - p1) + u * Qabs p2.
Proof.
  intros H R0 R1 R2.
  pose proof (bezier_start u rnd H p0 p1 p2) as B0.
  pose proof (bezier_finish u rnd H p0 p1 p2 R1) as B1.
  split; [exact B0|]. split; [exact B1|].
  split; [|split; [|split]].
  - intros E. rewrite B0.
    rewrite (rnd_eq u rnd H (p1 + rnd (p0 - p1)) p0) by (rewrite E; ring).
    exact R0.
  - intros E. rewrite B1.
    rewrite (rnd_eq u rnd H (p1 + rnd (p2 - p1)) p2) by (rewrite E; ring).
    exact R2.
  - rewrite B0. apply two_roundings. exact H.
  - rewrite B1. apply two_roundings. exact H.
Qed.

Lemma endpoints_up_to_rounding_witness :
  let p0 := Binary64.value Binary64.tenth in
  let p1 := Binary64.value Binary64.fourTenths in
  Rounding u53 round53 /\
  round53 p0 == p0 /\ round53 p1 == p1 /\
  bezier round53 p0 p1 p0 0 == round53 (p1 + round53 (p0 - p1)) /\
  Qabs (bezier round53 p0 p1 p0 0 - p0)
    <= u53 * (1 + u53) * Qabs (p0 - p1) + u53 * Qabs p0.
Proof.
  intros p0 p1.
  assert (R0 : round53 p0 == p0) by (vm_compute; reflexivity).
  assert (R1 : round53 p1 == p1) by (vm_compute; reflexivity).
  split; [exact round53_rounding|]. split; [exact R0|]. split; [exact R1|].
  destruct (endpoints_up_to_rounding u53 round53 p0 p1 p0
              round53_rounding R0 R1 R0) as (B0 & _ & _ & _ & E0 & _).
  split; [exact B0 | exact E0].
Defined.

(** *** The rotations of the arrowhead *)




End RoundingFacts.

(** ** The extent of the rounded sampler *)

(** The exact curve against quantities that are only near the exact ones:
    a' near [p0 - p1], d' near the divisor, and, where the branch of the
    critical point is taken at the parameter s, a value near the curve at s
    with [s * d' - a'] small.  The bounds are given from above; those from
    below follow by negating the control values. *)

Module ExtentCore.
Import Sampler Notions.
Local Open Scope Q_scope.

(** The curve about a parameter s, and about its chord. *)

Lemma bezier_about (p0 p1 p2 s t : Q) :
  bezier p0 p1 p2 t
  == bezier p0 p1 p2 s
     + 2 * (t - s) * (s * divisor p0 p1 p2 - (p0 - p1))
     + divisor p0 p1 p2 * ((t - s) * (t - s)).
Proof. unfold bezier, divisor. ring. Qed.

Lemma bezier_chord_form (p0 p1 p2 t : Q) :
  bezier p0 p1 p2 t
  == (1 - t) * p0 + t * p2 - divisor p0 p1 p2 * (t * (1 - t)).
Proof. unfold bezier, divisor. ring. Qed.

Lemma chord_le_max (p0 p2 t : Q) :
  0 <= t <= 1 -> (1 - t) * p0 + t * p2 <= Qmax p0 p2.
Proof.
  intros [T0 T1].
  pose proof (Q.le_max_l p0 p2) as M0. pose proof (Q.le_max_r p0 p2) as M2.
  set (m := Qmax p0 p2) in *. clearbody m. nra.
Qed.

Lemma upper_convex (p0 p1 p2 t : Q) :
  0 <= t <= 1 -> 0 <= divisor p0 p1 p2 ->
  bezier p0 p1 p2 t <= Qmax p0 p2.
Proof.
  intros Ht Hd. rewrite bezier_chord_form.
  pose proof (chord_le_max p0 p2 t Ht) as C. destruct Ht as [T0 T1].
  set (d := divisor p0 p1 p2) in *. clearbody d.
  assert (W0 : 0 <= t * (1 - t)) by (clear - T0 T1; nra).
  set (w := t * (1 - t)) in *. clearbody w.
  assert (0 <= d * w) by (clear - W0 Hd; nra).
  set (m := Qmax p0 p2) in *. clearbody m. lra.
Qed.

Lemma upper_flat (p0 p1 p2 t : Q) :
  0 <= t <= 1 -> divisor p0 p1 p2 <= 0 ->
  bezier p0 p1 p2 t <= Qmax p0 p2 + - divisor p0 p1 p2 * (1 # 4).
Proof.
  intros Ht Hd. rewrite bezier_chord_form.
  pose proof (chord_le_max p0 p2 t Ht) as C. destruct Ht as [T0 T1].
  set (d := divisor p0 p1 p2) in *. clearbody d.
  assert (W1 : t * (1 - t) <= (1 # 4)).
  { pose proof (SamplerFacts.sq_nonneg (t - (1 # 2))) as S. clear - T0 T1 S. nra. }
  assert (W0 : 0 <= t * (1 - t)) by (clear - T0 T1; nra).
  set (w := t * (1 - t)) in *. clearbody w.
  assert (- (d * w) <= - d * (1 # 4)) by (clear - W0 W1 Hd; nra).
  set (m := Qmax p0 p2) in *. clearbody m. lra.
Qed.

(** Above the value at s by at most the square of the slope residue over the
    curvature. *)
Lemma upper_near_vertex (p0 p1 p2 s t : Q) :
  divisor p0 p1 p2 <= - (64 * (allowance * allowance)) ->
  - (3 * allowance) <= s * divisor p0 p1 p2 - (p0 - p1) <= 3 * allowance ->
  bezier p0 p1 p2 t <= bezier p0 p1 p2 s + (9 # 64).
Proof.
  intros Hd [R1 R2]. rewrite (bezier_about p0 p1 p2 s t).
  set (d := divisor p0 p1 p2) in *.
  set (g := s * d - (p0 - p1)) in *.
  set (x := t - s).
  set (b := bezier p0 p1 p2 s).
  assert (A : 0 < allowance * allowance) by reflexivity.
  set (e2 := allowance * allowance) in *.
  assert (G : g * g <= 9 * e2).
  { unfold e2. set (e := allowance) in *. clearbody g e d. nra. }
  clearbody d g x b e2.
  assert (K : - d * (2 * x * g + d * (x * x)) <= g * g).
  { pose proof (SamplerFacts.sq_nonneg (g + d * x)) as S. nra. }
  assert (E : b + 2 * x * g + d * (x * x) == b + (2 * x * g + d * (x * x))) by ring.
  rewrite E.
  set (k := 2 * x * g + d * (x * x)) in *. clearbody k.
  assert (k <= (9 # 64)) by nra.
  lra.
Qed.

Section Upper.

Variables p0 p1 p2 : Q.
Variables a' d' : Q.
Hypothesis Ha : Qabs (a' - (p0 - p1)) <= allowance.
Hypothesis Hd : Qabs (d' - divisor p0 p1 p2) <= allowance.
Variable t : Q.
Hypothesis Ht : 0 <= t <= 1.

(** The branch of the critical point was taken, at the parameter s. *)
Lemma upper_taken (s pm' : Q) :
  0 < s -> s < 1 ->
  Qabs (s * d' - a') <= allowance ->
  Qabs (pm' - bezier p0 p1 p2 s) <= allowance ->
  bezier p0 p1 p2 t <= Qmax (Qmax p0 p2) pm' + (1 # 4).
Proof.
  intros S0 S1 Hr Hp.
  set (a := p0 - p1) in *. set (d := divisor p0 p1 p2) in *.
  pose proof (Q.le_max_l (Qmax p0 p2) pm') as M1.
  pose proof (Q.le_max_r (Qmax p0 p2) pm') as M2.
  apply Qabs_Qle_condition in Ha, Hd, Hr, Hp.
  assert (E : allowance == 1 # 1048576) by reflexivity.
  destruct (Qlt_le_dec d 0) as [N|P].
  - destruct (Qlt_le_dec (- (64 * (allowance * allowance))) d) as [F|C].
    + pose proof (upper_flat p0 p1 p2 t Ht (Qlt_le_weak _ _ N)) as U.
      fold d in U.
      assert (E2 : allowance * allowance == 1 # 1099511627776) by reflexivity.
      lra.
    + assert (G : - (3 * allowance) <= s * d - a <= 3 * allowance).
      { assert (X : s * d - a == s * (d - d') + (s * d' - a') + (a' - a)) by ring.
        rewrite X.
        assert (- allowance <= s * (d - d') <= allowance).
        { set (y := d - d'). assert (- allowance <= y <= allowance) by (unfold y; lra).
          clearbody y. set (e := allowance) in *. clearbody e. clear - H S0 S1.
          split; nra. }
        lra. }
      pose proof (upper_near_vertex p0 p1 p2 s t C G) as U.
      lra.
  - pose proof (upper_convex p0 p1 p2 t Ht P) as U. lra.
Qed.

(** The branch was skipped. *)
Lemma upper_skipped :
  d' == 0 \/
  ((d' < 0 -> - allowance <= a') /\ (0 < d' -> a' <= allowance)) \/
  ((d' < 0 -> a' <= d' + allowance) /\ (0 < d' -> d' - allowance <= a')) ->
  bezier p0 p1 p2 t <= Qmax p0 p2 + (1 # 4).
Proof.
  intros Hc.
  set (a := p0 - p1) in *. set (d := divisor p0 p1 p2) in *.
  apply Qabs_Qle_condition in Ha, Hd.
  assert (E : allowance == 1 # 1048576) by reflexivity.
  destruct (Qlt_le_dec d 0) as [N|P].
  - destruct (Qlt_le_dec (- (4 * allowance)) d) as [F|C].
    + pose proof (upper_flat p0 p1 p2 t Ht (Qlt_le_weak _ _ N)) as U.
      fold d in U. lra.
    + assert (D' : d' < 0) by lra.
      destruct Hc as [Z | [[L _] | [L _]]].
      * lra.
      * specialize (L D').
        rewrite (bezier_about p0 p1 p2 0 t). fold d.
        assert (B0 : bezier p0 p1 p2 0 == p0) by (unfold bezier; ring).
        rewrite B0. pose proof (Q.le_max_l p0 p2) as M.
        assert (A2 : - (2 * allowance) <= a) by lra.
        destruct Ht as [T0 T1].
        assert (X : 2 * (t - 0) * (0 * d - (p0 - p1)) <= 4 * allowance).
        { assert (C1 : 0 * d - (p0 - p1) == - a) by (unfold a; ring).
          rewrite C1. set (e := allowance) in *. clearbody a e. clear - A2 T0 T1 E.
          assert (0 <= t * (a + 2 * e)) by nra. nra. }
        assert (Y : d * ((t - 0) * (t - 0)) <= 0).
        { clearbody d. clear - N T0 T1. nra. }
        lra.
      * specialize (L D').
        rewrite (bezier_about p0 p1 p2 1 t). fold d.
        assert (B1 : bezier p0 p1 p2 1 == p2) by (unfold bezier; ring).
        rewrite B1. pose proof (Q.le_max_r p0 p2) as M.
        assert (A2 : - (3 * allowance) <= d - a) by lra.
        destruct Ht as [T0 T1].
        assert (X : 2 * (t - 1) * (1 * d - (p0 - p1)) <= 6 * allowance).
        { assert (C1 : 1 * d - (p0 - p1) == d - a) by (unfold a; ring).
          rewrite C1. set (e := allowance) in *. set (c := d - a) in *.
          clearbody c e. clear - A2 T0 T1 E.
          assert (0 <= (1 - t) * (c + 3 * e)) by nra. nra. }
        assert (Y : d * ((t - 1) * (t - 1)) <= 0).
        { pose proof (SamplerFacts.sq_nonneg (t - 1)) as S.
          clearbody d. clear - N S. nra. }
        lra.
  - pose proof (upper_convex p0 p1 p2 t Ht P) as U. lra.
Qed.

End Upper.

(** Negating the control values. *)
Lemma max_opp (x y : Q) : Qmax (- x) (- y) == - Qmin x y.
Proof.
  destruct (Q.max_spec (- x) (- y)) as [[L ->] | [L ->]];
  destruct (Q.min_spec x y) as [[L' ->] | [L' ->]]; lra.
Qed.

Lemma bezier_opp (p0 p1 p2 t : Q) :
  bezier (- p0) (- p1) (- p2) t == - bezier p0 p1 p2 t.
Proof. unfold bezier. ring. Qed.

Lemma divisor_opp (p0 p1 p2 : Q) :
  divisor (- p0) (- p1) (- p2) == - divisor p0 p1 p2.
Proof. unfold divisor. ring. Qed.

Lemma Qabs_opp_diff (x y x' y' : Q) :
  x' == - x -> y' == - y -> Qabs (x' - y') == Qabs (x - y).
Proof.
  intros -> ->. rewrite <- (Qabs_opp (x - y)).
  apply Qabs_wd. ring.
Qed.

Lemma difference_opp (p0 p1 a' : Q) :
  Qabs (a' - (p0 - p1)) <= allowance ->
  Qabs (- a' - (- p0 - - p1)) <= allowance.
Proof.
  intros Ha.
  rewrite (Qabs_opp_diff a' (p0 - p1)); [exact Ha | reflexivity | ring].
Qed.

Lemma divisor_opp_close (p0 p1 p2 d' : Q) :
  Qabs (d' - divisor p0 p1 p2) <= allowance ->
  Qabs (- d' - divisor (- p0) (- p1) (- p2)) <= allowance.
Proof.
  intros Hd.
  rewrite (Qabs_opp_diff d' (divisor p0 p1 p2));
    [exact Hd | reflexivity | apply divisor_opp].
Qed.

Section Lower.

Variables p0 p1 p2 a' d' t : Q.
Hypothesis Ha : Qabs (a' - (p0 - p1)) <= allowance.
Hypothesis Hd : Qabs (d' - divisor p0 p1 p2) <= allowance.
Hypothesis Ht : 0 <= t <= 1.

Lemma lower_taken (s pm' : Q) :
  0 < s -> s < 1 ->
  Qabs (s * d' - a') <= allowance ->
  Qabs (pm' - bezier p0 p1 p2 s) <= allowance ->
  Qmin (Qmin p0 p2) pm' - (1 # 4) <= bezier p0 p1 p2 t.
Proof.
  intros S0 S1 Hr Hp.
  assert (Hr' : Qabs (s * - d' - - a') <= allowance).
  { rewrite (Qabs_opp_diff (s * d') a'); [exact Hr | ring | reflexivity]. }
  assert (Hp' : Qabs (- pm' - bezier (- p0) (- p1) (- p2) s) <= allowance).
  { rewrite (Qabs_opp_diff pm' (bezier p0 p1 p2 s));
      [exact Hp | reflexivity | apply bezier_opp]. }
  pose proof (upper_taken (- p0) (- p1) (- p2) (- a') (- d')
                (difference_opp p0 p1 a' Ha) (divisor_opp_close p0 p1 p2 d' Hd)
                t Ht s (- pm') S0 S1 Hr' Hp') as U.
  rewrite bezier_opp in U.
  assert (M : Qmax (Qmax (- p0) (- p2)) (- pm') == - Qmin (Qmin p0 p2) pm').
  { rewrite (max_opp p0 p2). apply max_opp. }
  rewrite M in U. lra.
Qed.

Lemma lower_skipped :
  d' == 0 \/
  ((d' < 0 -> - allowance <= a') /\ (0 < d' -> a' <= allowance)) \/
  ((d' < 0 -> a' <= d' + allowance) /\ (0 < d' -> d' - allowance <= a')) ->
  Qmin p0 p2 - (1 # 4) <= bezier p0 p1 p2 t.
Proof.
  intros Hc.
  assert (Hc' :
    - d' == 0 \/
    ((- d' < 0 -> - allowance <= - a') /\ (0 < - d' -> - a' <= allowance)) \/
    ((- d' < 0 -> - a' <= - d' + allowance) /\
     (0 < - d' -> - d' - allowance <= - a'))).
  { destruct Hc as [Z | [[L1 L2] | [L1 L2]]].
    - left. lra.
    - right. left. split; intros D.
      + assert (0 < d') by lra. specialize (L2 H). lra.
      + assert (d' < 0) by lra. specialize (L1 H). lra.
    - right. right. split; intros D.
      + assert (0 < d') by lra. specialize (L2 H). lra.
      + assert (d' < 0) by lra. specialize (L1 H). lra. }
  pose proof (upper_skipped (- p0) (- p1) (- p2) (- a') (- d')
                (difference_opp p0 p1 a' Ha) (divisor_opp_close p0 p1 p2 d' Hd)
                t Ht Hc') as U.
  rewrite bezier_opp, max_opp in U. lra.
Qed.

End Lower.

End ExtentCore.

(** The quantities the rounded sampler computes are near the exact ones. *)

Module ExtentRounded.
Import Sampler Rounded Notions ExtentCore RoundingFacts.
Local Open Scope Q_scope.

Ltac absolute :=
  repeat match goal with
         | H : Qabs _ <= _ |- _ => apply Qabs_Qle_condition in H
         end;
  try apply Qabs_Qle_condition.

Section Errors.

Variable u : Q.
Variable rnd : Q -> Q.
Hypothesis H : Rounding u rnd.
Hypothesis Hu : u <= u53.

Lemma u53_value : u53 == 1 # 9007199254740992.
Proof. reflexivity. Qed.

(** The rounding of a value x that is within ex of x0, and at most M in
    magnitude, is within [ex + u53 * M] of x0. *)
Lemma rnd_within (x x0 ex M : Q) :
  Qabs (x - x0) <= ex -> Qabs x <= M -> Qabs (rnd x - x0) <= ex + u53 * M.
Proof.
  intros E B.
  pose proof (rnd_near u rnd H x) as N.
  pose proof (unit_nonneg u rnd H) as U0.
  pose proof (Qabs_nonneg x) as X0.
  assert (K : u * Qabs x <= u53 * M).
  { set (v := Qabs x) in *. set (c := u53) in *. clearbody v c.
    clear - U0 X0 Hu B. nra. }
  setoid_replace (rnd x - x0) with ((rnd x - x) + (x - x0)) by ring.
  eapply Qle_trans; [apply Qabs_triangle|]. lra.
Qed.

Lemma mul_within (x x0 y y0 ex ey X Y : Q) :
  Qabs (x - x0) <= ex -> Qabs (y - y0) <= ey -> Qabs x0 <= X -> Qabs y <= Y ->
  Qabs (x * y - x0 * y0) <= ex * Y + X * ey.
Proof.
  intros E1 E2 B1 B2.
  setoid_replace (x * y - x0 * y0) with ((x - x0) * y + x0 * (y - y0)) by ring.
  eapply Qle_trans; [apply Qabs_triangle|].
  rewrite !Qabs_Qmult.
  pose proof (Qabs_nonneg (x - x0)). pose proof (Qabs_nonneg (y - y0)).
  pose proof (Qabs_nonneg x0). pose proof (Qabs_nonneg y).
  set (A := Qabs (x - x0)) in *. set (B := Qabs (y - y0)) in *.
  set (C := Qabs x0) in *. set (D := Qabs y) in *.
  clearbody A B C D. clear - E1 E2 B1 B2 H0 H1 H2 H3.
  assert (A * D <= ex * Y) by nra.
  assert (C * B <= X * ey) by nra.
  lra.
Qed.

Section Curve.

Variables p0 p1 p2 : Q.
Hypothesis R0 : inPixelRange p0.
Hypothesis R1 : inPixelRange p1.
Hypothesis R2 : inPixelRange p2.

(** The computed difference of two control values. *)
Lemma difference_computed (x y : Q) :
  inPixelRange x -> inPixelRange y ->
  Qabs (sub rnd x y - (x - y)) <= u53 * 2097152.
Proof.
  intros [X1 X2] [Y1 Y2]. unfold sub.
  assert (E : Qabs (x - y - (x - y)) <= 0).
  { setoid_replace (x - y - (x - y)) with 0 by ring. apply Qle_refl. }
  assert (B : Qabs (x - y) <= 2097152) by (apply Qabs_Qle_condition; lra).
  pose proof (rnd_within _ _ _ _ E B) as W. lra.
Qed.

(** The computed divisor. *)
Lemma divisor_computed :
  Qabs (add rnd (sub rnd p0 (mul rnd 2 p1)) p2 - divisor p0 p1 p2)
  <= allowance.
Proof.
  destruct R0 as [A1 A2], R1 as [B1 B2], R2 as [C1 C2].
  pose proof u53_value as V.
  unfold add, sub, mul, divisor.
  assert (E1 : Qabs (2 * p1 - 2 * p1) <= 0).
  { setoid_replace (2 * p1 - 2 * p1) with 0 by ring. apply Qle_refl. }
  assert (M1 : Qabs (2 * p1) <= 2097152) by (apply Qabs_Qle_condition; lra).
  pose proof (rnd_within _ _ _ _ E1 M1) as W1.
  set (x1 := rnd (2 * p1)) in *.
  assert (E2 : Qabs (p0 - x1 - (p0 - 2 * p1)) <= 0 + u53 * 2097152).
  { absolute. lra. }
  assert (M2 : Qabs (p0 - x1) <= 4194304) by (absolute; lra).
  pose proof (rnd_within _ _ _ _ E2 M2) as W2.
  set (x2 := rnd (p0 - x1)) in *.
  assert (E3 : Qabs (x2 + p2 - (p0 - 2 * p1 + p2))
               <= 0 + u53 * 2097152 + u53 * 4194304).
  { absolute. lra. }
  assert (M3 : Qabs (x2 + p2) <= 8388608) by (absolute; lra).
  pose proof (rnd_within _ _ _ _ E3 M3) as W3.
  assert (A : allowance == 1 # 1048576) by reflexivity.
  absolute. lra.
Qed.

(** The computed value of the curve at a parameter in [0,1]. *)
Lemma bezier_computed (t : Q) :
  0 <= t <= 1 ->
  Qabs (Rounded.bezier rnd p0 p1 p2 t - Sampler.bezier p0 p1 p2 t)
  <= allowance.
Proof.
  intros [T0 T1].
  pose proof u53_value as V.
  pose proof (difference_computed p0 p1 R0 R1) as Da.
  pose proof (difference_computed p2 p1 R2 R1) as Dc.
  destruct R0 as [A1 A2], R1 as [B1 B2], R2 as [C1 C2].
  unfold Rounded.bezier, Sampler.bezier, add, mul.
  set (a' := sub rnd p0 p1) in *. set (c' := sub rnd p2 p1) in *.
  unfold sub.
  set (a := p0 - p1) in *. set (c := p2 - p1) in *.
  assert (RA : Qabs a <= 2097152) by (unfold a; apply Qabs_Qle_condition; lra).
  assert (RC : Qabs c <= 2097152) by (unfold c; apply Qabs_Qle_condition; lra).
  set (o := 1 - t).
  assert (O : 0 <= o <= 1) by (unfold o; lra).
  assert (OO : 0 <= o * o <= 1) by (clearbody o; clear - O; nra).
  assert (TT : 0 <= t * t <= 1) by (clear - T0 T1; nra).
  (* 1 - t *)
  assert (E1 : Qabs (o - o) <= 0).
  { setoid_replace (o - o) with 0 by ring. apply Qle_refl. }
  assert (M1 : Qabs o <= 1) by (apply Qabs_Qle_condition; lra).
  pose proof (rnd_within _ _ _ _ E1 M1) as W1.
  set (s1 := rnd o) in *.
  (* (1 - t) * (1 - t) *)
  assert (S1 : Qabs s1 <= 2) by (absolute; lra).
  pose proof (mul_within s1 o s1 o _ _ _ _ W1 W1 M1 S1) as P2.
  assert (M2 : Qabs (s1 * s1) <= 2) by (absolute; lra).
  pose proof (rnd_within _ _ _ _ P2 M2) as W2.
  set (s2 := rnd (s1 * s1)) in *.
  (* (1 - t) * (1 - t) * (p0 - p1) *)
  assert (OO1 : Qabs (o * o) <= 1) by (apply Qabs_Qle_condition; lra).
  assert (A' : Qabs a' <= 4194304) by (absolute; lra).
  pose proof (mul_within s2 (o * o) a' a _ _ _ _ W2 Da OO1 A') as P3.
  assert (OOA : Qabs (o * o * a) <= 2097152).
  { rewrite Qabs_Qmult. pose proof (Qabs_nonneg (o * o)). pose proof (Qabs_nonneg a).
    set (x := Qabs (o * o)) in *. set (y := Qabs a) in *. clearbody x y.
    clear - OO1 RA H0 H1. nra. }
  assert (M3 : Qabs (s2 * a') <= 4194304) by (absolute; lra).
  pose proof (rnd_within _ _ _ _ P3 M3) as W3.
  set (m1 := rnd (s2 * a')) in *.
  (* p1 + ... *)
  assert (E4 : Qabs (p1 + m1 - (p1 + o * o * a)) <= u53 * 27262976).
  { absolute. lra. }
  assert (M4 : Qabs (p1 + m1) <= 4194304) by (absolute; lra).
  pose proof (rnd_within _ _ _ _ E4 M4) as W4.
  set (s4 := rnd (p1 + m1)) in *.
  (* t * t *)
  assert (E5 : Qabs (t * t - t * t) <= 0).
  { setoid_replace (t * t - t * t) with 0 by ring. apply Qle_refl. }
  assert (M5 : Qabs (t * t) <= 1) by (apply Qabs_Qle_condition; lra).
  pose proof (rnd_within _ _ _ _ E5 M5) as W5.
  set (s5 := rnd (t * t)) in *.
  (* t * t * (p2 - p1) *)
  assert (C' : Qabs c' <= 4194304) by (absolute; lra).
  pose proof (mul_within s5 (t * t) c' c _ _ _ _ W5 Dc M5 C') as P6.
  assert (TTC : Qabs (t * t * c) <= 2097152).
  { rewrite Qabs_Qmult. pose proof (Qabs_nonneg (t * t)). pose proof (Qabs_nonneg c).
    set (x := Qabs (t * t)) in *. set (y := Qabs c) in *. clearbody x y.
    clear - M5 RC H0 H1. nra. }
  assert (M6 : Qabs (s5 * c') <= 4194304) by (absolute; lra).
  pose proof (rnd_within _ _ _ _ P6 M6) as W6.
  set (m2 := rnd (s5 * c')) in *.
  (* the last sum *)
  assert (E7 : Qabs (s4 + m2 - (p1 + o * o * a + t * t * c)) <= 1 # 4194304).
  { absolute. lra. }
  assert (M7 : Qabs (s4 + m2) <= 8388608) by (absolute; lra).
  pose proof (rnd_within _ _ _ _ E7 M7) as W7.
  assert (A : allowance == 1 # 1048576) by reflexivity.
  fold o. absolute. lra.
Qed.

End Curve.

(** The computed quotient t' of a' by d': it nearly solves [t' * d' = a'],
    and its position relative to 0 and to 1 tells the signs. *)
Lemma quotient_computed (a' d' : Q) :
  ~ d' == 0 -> Qabs a' <= 4194304 ->
  Qabs (div rnd a' d' * d' - a') <= allowance /\
  (div rnd a' d' <= 0 ->
   (d' < 0 -> - allowance <= a') /\ (0 < d' -> a' <= allowance)) /\
  (1 <= div rnd a' d' ->
   (d' < 0 -> a' <= d' + allowance) /\ (0 < d' -> d' - allowance <= a')).
Proof.
  intros D A. unfold div.
  set (q := a' / d').
  assert (Q : q * d' == a') by (unfold q; field; exact D).
  pose proof (rnd_near u rnd H q) as N.
  pose proof (unit_nonneg u rnd H) as U0.
  pose proof u53_value as V.
  assert (AL : allowance == 1 # 1048576) by reflexivity.
  set (t' := rnd q) in *.
  assert (QA : Qabs q * Qabs d' == Qabs a').
  { rewrite <- Qabs_Qmult. apply Qabs_wd. exact Q. }
  split; [|split].
  - setoid_replace (t' * d' - a') with ((t' - q) * d') by (rewrite <- Q; ring).
    rewrite Qabs_Qmult.
    pose proof (Qabs_nonneg (t' - q)). pose proof (Qabs_nonneg q).
    pose proof (Qabs_nonneg d').
    set (x := Qabs (t' - q)) in *. set (y := Qabs q) in *.
    set (z := Qabs d') in *. set (w := Qabs a') in *. set (c := u53) in *.
    clearbody x y z w c. clear - N U0 V AL QA A Hu H0 H1 H2.
    assert (x * z <= u * y * z) by nra.
    assert (u * w <= c * 4194304) by nra.
    assert (u * y * z == u * w) by (rewrite <- QA; ring).
    lra.
  - intros T.
    assert (Q0 : q <= 0).
    { destruct (Qlt_le_dec 0 q) as [P|P]; [|exact P]. exfalso.
      rewrite (Qabs_pos q) in N by lra. apply Qabs_Qle_condition in N.
      set (c := u53) in *. clearbody c t'. clear - N T P U0 Hu V. nra. }
    split; intros S; clearbody q; clear - Q Q0 S AL; nra.
  - intros T.
    assert (Q0 : 0 < q).
    { destruct (Qlt_le_dec 0 q) as [P|P]; [exact P|]. exfalso.
      rewrite (Qabs_neg q) in N by lra. apply Qabs_Qle_condition in N.
      set (c := u53) in *. clearbody c t'. clear - N T P U0 Hu V. nra. }
    rewrite (Qabs_pos q) in N by lra. apply Qabs_Qle_condition in N.
    assert (Q1 : 1 <= q * (1 + u)) by (clearbody t'; clear - N T; lra).
    apply Qabs_Qle_condition in A.
    split; intros S.
    + assert (K : a' * (1 + u) <= d').
      { rewrite <- Q. clearbody q. clear - Q1 S. nra. }
      assert (K2 : - (u * a') <= u53 * 4194304).
      { set (c := u53) in *. clearbody c. clear - A U0 Hu V. nra. }
      lra.
    + assert (K : d' <= a' * (1 + u)).
      { rewrite <- Q. clearbody q. clear - Q1 S. nra. }
      assert (K2 : u * a' <= u53 * 4194304).
      { set (c := u53) in *. clearbody c. clear - A U0 Hu V. nra. }
      lra.
Qed.

(** The locals [min] and [max] contain the curve up to a quarter. *)
Lemma locals_computed (p0 p1 p2 t : Q) :
  inPixelRange p0 -> inPixelRange p1 -> inPixelRange p2 ->
  0 <= t <= 1 ->
  fst (minMaxLocals rnd p0 p1 p2) - (1 # 4) <= Sampler.bezier p0 p1 p2 t /\
  Sampler.bezier p0 p1 p2 t <= snd (minMaxLocals rnd p0 p1 p2) + (1 # 4).
Proof.
  intros R0 R1 R2 Ht.
  pose proof (divisor_computed p0 p1 p2 R0 R1 R2) as Hd.
  pose proof (difference_computed p0 p1 R0 R1) as Da.
  pose proof u53_value as V.
  assert (AL : allowance == 1 # 1048576) by reflexivity.
  assert (Ha : Qabs (sub rnd p0 p1 - (p0 - p1)) <= allowance) by lra.
  assert (A' : Qabs (sub rnd p0 p1) <= 4194304).
  { destruct R0, R1. absolute. lra. }
  unfold minMaxLocals.
  set (d' := add rnd (sub rnd p0 (mul rnd 2 p1)) p2) in *.
  set (a' := sub rnd p0 p1) in *.
  destruct (Qeq_bool d' 0) eqn:Z; cbn [negb fst snd].
  - apply Qeq_bool_iff in Z. split.
    + apply (lower_skipped p0 p1 p2 a' d' t Ha Hd Ht). left. exact Z.
    + apply (upper_skipped p0 p1 p2 a' d' Ha Hd t Ht). left. exact Z.
  - apply Qeq_bool_neq in Z.
    destruct (quotient_computed a' d' Z A') as (Q1 & Q2 & Q3).
    set (t' := div rnd a' d') in *.
    destruct (Qlt_le_dec 0 t') as [T0|T0].
    + destruct (Qlt_le_dec t' 1) as [T1|T1]; cbn [fst snd].
      * assert (T' : 0 <= t' <= 1) by lra.
        pose proof (bezier_computed p0 p1 p2 R0 R1 R2 t' T') as Hp.
        split.
        -- apply (lower_taken p0 p1 p2 a' d' t Ha Hd Ht t' _ T0 T1 Q1 Hp).
        -- apply (upper_taken p0 p1 p2 a' d' Ha Hd t Ht t' _ T0 T1 Q1 Hp).
      * split.
        -- apply (lower_skipped p0 p1 p2 a' d' t Ha Hd Ht). right. right.
           apply Q3. exact T1.
        -- apply (upper_skipped p0 p1 p2 a' d' Ha Hd t Ht). right. right.
           apply Q3. exact T1.
    + cbn [fst snd]. split.
      * apply (lower_skipped p0 p1 p2 a' d' t Ha Hd Ht). right. left.
        apply Q2. exact T0.
      * apply (upper_skipped p0 p1 p2 a' d' Ha Hd t Ht). right. left.
        apply Q2. exact T0.
Qed.

(** The rounded pair contains the curve up to three quarters. *)
Lemma extent_computed (p0 p1 p2 t : Q) :
  inPixelRange p0 -> inPixelRange p1 -> inPixelRange p2 ->
  0 <= t <= 1 ->
  inject_Z (fst (quadraticCurveMinMax rnd p0 p1 p2)) - (3 # 4)
    <= Sampler.bezier p0 p1 p2 t /\
  Sampler.bezier p0 p1 p2 t
    <= inject_Z (snd (quadraticCurveMinMax rnd p0 p1 p2)) + (3 # 4).
Proof.
  intros R0 R1 R2 Ht.
  destruct (locals_computed p0 p1 p2 t R0 R1 R2 Ht) as [L U].
  unfold quadraticCurveMinMax.
  destruct (minMaxLocals rnd p0 p1 p2) as [mn mx]. cbn [fst snd] in *.
  pose proof (SamplerFacts.Math_round_le mn).
  pose proof (SamplerFacts.Math_round_gt mx).
  split; lra.
Qed.

End Errors.

(** The rounded sampler and the binary64 sampler return the same pair for
    the curve with the control values 0, 77, 56, whose extreme 60.5 in exact
    arithmetic is missed by the computed one just enough to be rounded down;
    run from the other end, it is rounded up. *)
Example extent_0_77_56 :
  Rounded.quadraticCurveMinMax round53 0 77 56 = (0, 60)%Z /\
  Binary64.quadraticCurveMinMax
    (Binary64.of_Z 0) (Binary64.of_Z 77) (Binary64.of_Z 56)
  = (Binary64.of_Z 0, Binary64.of_Z 60) /\
  Binary64.quadraticCurveMinMax
    (Binary64.of_Z 56) (Binary64.of_Z 77) (Binary64.of_Z 0)
  = (Binary64.of_Z 0, Binary64.of_Z 61) /\
  Sampler.bezier 0 77 56 (11 # 14) == 121 # 2.
Proof. vm_compute. repeat split; reflexivity. Qed.

(** C1, as the claim states it, fails: the bounds are rounded to the nearest
    integer, so the curve from 0 to 1/4 (control value 1/8) gets the extent
    (0, 0), and its end point 1/4, reached at parameter 1, lies above it.
    The three control values are binary64 numbers and every operation on
    them is exact, so this is what the program computes. *)
Lemma extent_excludes_end_point :
  0 <= 1 <= 1 /\
  Rounded.quadraticCurveMinMax round53 0 (1 # 8) (1 # 4) = (0, 0)%Z /\
  ~ (inject_Z (fst (Rounded.quadraticCurveMinMax round53 0 (1 # 8) (1 # 4)))
       <= Rounded.bezier round53 0 (1 # 8) (1 # 4) 1
       <= inject_Z (snd (Rounded.quadraticCurveMinMax round53 0 (1 # 8) (1 # 4)))) /\
  Binary64.quadraticCurveMinMax
    (Binary64.of_Z 0) Binary64.eighth Binary64.quarter
  = (Binary64.of_Z 0, Binary64.of_Z 0) /\
  Binary64.bezier (Binary64.of_Z 0) Binary64.eighth Binary64.quarter
    (Binary64.of_Z 1)
  = Binary64.quarter.
Proof.
  split; [lra |]. split; [vm_compute; reflexivity |].
  split; [| split; vm_compute; reflexivity].
  intros [_ B]. vm_compute in B. apply B. reflexivity.
Qed.

(** C1, amended: with every operation rounded to 53 bits or better, for
    control values of at most 2^20 in magnitude and every parameter t in
    [0,1], the value of the curve lies within one unit of the pair that
    [quadraticCurveMinMax] returns: min - 1 <= bezier(t) <= max + 1, for the
    exact value of the curve and for the computed one. *)
Theorem extent_contains_curve
    (u : Q) (rnd : Q -> Q) (p0 p1 p2 t : Q) :
  Rounding u rnd -> u <= u53 ->
  inPixelRange p0 -> inPixelRange p1 -> inPixelRange p2 ->
  0 <= t <= 1 ->
  (inject_Z (fst (Rounded.quadraticCurveMinMax rnd p0 p1 p2)) - 1
     <= Sampler.bezier p0 p1 p2 t
     <= inject_Z (snd (Rounded.quadraticCurveMinMax rnd p0 p1 p2)) + 1) /\
  (inject_Z (fst (Rounded.quadraticCurveMinMax rnd p0 p1 p2)) - 1
     <= Rounded.bezier rnd p0 p1 p2 t
     <= inject_Z (snd (Rounded.quadraticCurveMinMax rnd p0 p1 p2)) + 1).
Proof.
  intros H Hu R0 R1 R2 Ht.
  destruct (extent_computed u rnd H Hu p0 p1 p2 t R0 R1 R2 Ht) as [L U].
  pose proof (bezier_computed u rnd H Hu p0 p1 p2 R0 R1 R2 t Ht) as C.
  apply Qabs_Qle_condition in C.
  assert (A : allowance == 1 # 1048576) by reflexivity.
  repeat split; lra.
Qed.

Lemma extent_contains_curve_witness :
  Rounding u53 round53 /\ u53 <= u53 /\
  inPixelRange 0 /\ inPixelRange 77 /\ inPixelRange 56 /\
  0 <= 11 # 14 <= 1 /\
  inject_Z (fst (Rounded.quadraticCurveMinMax round53 0 77 56)) - 1
    <= Sampler.bezier 0 77 56 (11 # 14)
    <= inject_Z (snd (Rounded.quadraticCurveMinMax round53 0 77 56)) + 1.
Proof.
  assert (R0 : inPixelRange 0) by (split; vm_compute; discriminate).
  assert (R1 : inPixelRange 77) by (split; vm_compute; discriminate).
  assert (R2 : inPixelRange 56) by (split; vm_compute; discriminate).
  assert (Ht : 0 <= 11 # 14 <= 1) by lra.
  assert (Hu : u53 <= u53) by apply Qle_refl.
  split; [exact round53_rounding |]. split; [exact Hu |].
  split; [exact R0 |]. split; [exact R1 |]. split; [exact R2 |].
  split; [exact Ht |].
  exact (proj1 (extent_contains_curve u53 round53 0 77 56 (11 # 14)
                  round53_rounding Hu R0 R1 R2 Ht)).
Defined.

(** X25: on binary64 numbers the extent depends on the direction in which
    the curve is run: for the control values 0, 77, 56 the program returns
    (0, 60), and for 56, 77, 0 it returns (0, 61). *)
Theorem extent_depends_on_direction :
  Binary64.quadraticCurveMinMax
    (Binary64.of_Z 0) (Binary64.of_Z 77) (Binary64.of_Z 56)
  = (Binary64.of_Z 0, Binary64.of_Z 60) /\
  Binary64.quadraticCurveMinMax
    (Binary64.of_Z 56) (Binary64.of_Z 77) (Binary64.of_Z 0)
  = (Binary64.of_Z 0, Binary64.of_Z 61).
Proof. vm_compute. split; reflexivity. Qed.

(** X26: with every operation rounded to 53 bits or better, for control
    values of at most 2^20 in magnitude and a parameter in [0,1], the value
    that [bezier] computes is within [2 ^ (-20)] of the exact value of the
    curve. *)
Theorem bezier_accuracy (u : Q) (rnd : Q -> Q) (p0 p1 p2 t : Q) :
  Rounding u rnd -> u <= u53 ->
  inPixelRange p0 -> inPixelRange p1 -> inPixelRange p2 ->
  0 <= t <= 1 ->
  Qabs (Rounded.bezier rnd p0 p1 p2 t - Sampler.bezier p0 p1 p2 t)
  <= 2 ^ (-20).
Proof.
  intros H Hu R0 R1 R2 Ht.
  exact (bezier_computed u rnd H Hu p0 p1 p2 R0 R1 R2 t Ht).
Qed.

Lemma bezier_accuracy_witness :
  Rounding u53 round53 /\ u53 <= u53 /\
  inPixelRange 0 /\ inPixelRange 77 /\ inPixelRange 56 /\
  0 <= 11 # 14 <= 1 /\
  Qabs (Rounded.bezier round53 0 77 56 (11 # 14)
        - Sampler.bezier 0 77 56 (11 # 14)) <= 2 ^ (-20).
Proof.
  assert (R0 : inPixelRange 0) by (split; vm_compute; discriminate).
  assert (R1 : inPixelRange 77) by (split; vm_compute; discriminate).
  assert (R2 : inPixelRange 56) by (split; vm_compute; discriminate).
  assert (Ht : 0 <= 11 # 14 <= 1) by lra.
  assert (Hu : u53 <= u53) by apply Qle_refl.
  split; [exact round53_rounding |]. split; [exact Hu |].
  split; [exact R0 |]. split; [exact R1 |]. split; [exact R2 |].
  split; [exact Ht |].
  exact (bezier_accuracy u53 round53 0 77 56 (11 # 14)
           round53_rounding Hu R0 R1 R2 Ht).
Defined.

End ExtentRounded.

(** ** The canvas box of the rounded layout *)

Module CanvasRounded.
Import Sampler Renderer Notions Samples RoundingFacts ExtentRounded.
Import Rounded.
Local Open Scope Q_scope.

(** The curve stays in the range of its control values. *)
Lemma bezier_in_range (p0 p1 p2 t : Q) :
  inPixelRange p0 -> inPixelRange p1 -> inPixelRange p2 ->
  0 <= t <= 1 -> inPixelRange (Sampler.bezier p0 p1 p2 t).
Proof.
  intros [A1 A2] [B1 B2] [C1 C2] [T0 T1]. unfold inPixelRange.
  assert (E : Sampler.bezier p0 p1 p2 t
              == (1 - t) * (1 - t) * p0 + 2 * (t * (1 - t)) * p1 + t * t * p2)
    by (unfold Sampler.bezier; ring).
  rewrite E.
  assert (W0 : 0 <= (1 - t) * (1 - t)) by nra.
  assert (W1 : 0 <= t * (1 - t)) by nra.
  assert (W2 : 0 <= t * t) by nra.
  assert (S : (1 - t) * (1 - t) + 2 * (t * (1 - t)) + t * t == 1) by ring.
  set (w0 := (1 - t) * (1 - t)) in *. set (w1 := t * (1 - t)) in *.
  set (w2 := t * t) in *. clearbody w0 w1 w2.
  split; nra.
Qed.

Section Box.

Variable u : Q.
Variable rnd : Q -> Q.
Hypothesis H : Rounding u rnd.
Hypothesis Hu : u <= u53.

Lemma locals_in_range (p0 p1 p2 : Q) :
  inPixelRange p0 -> inPixelRange p1 -> inPixelRange p2 ->
  - 1048576 - allowance <= fst (minMaxLocals rnd p0 p1 p2) /\
  snd (minMaxLocals rnd p0 p1 p2) <= 1048576 + allowance.
Proof.
  intros R0 R1 R2.
  assert (A : allowance == 1 # 1048576) by reflexivity.
  assert (E : - 1048576 - allowance <= Qmin p0 p2 /\
              Qmax p0 p2 <= 1048576 + allowance).
  { destruct R0, R2. split; [apply Q.min_glb | apply Q.max_lub]; lra. }
  destruct E as [E1 E2].
  unfold minMaxLocals.
  destruct (negb _); [| split; assumption].
  destruct (Qlt_le_dec 0 _) as [T0|T0]; [| split; assumption].
  destruct (Qlt_le_dec _ 1) as [T1|T1]; [| split; assumption].
  set (t' := div rnd (sub rnd p0 p1) (add rnd (sub rnd p0 (mul rnd 2 p1)) p2)) in *.
  assert (T' : 0 <= t' <= 1) by lra.
  pose proof (bezier_computed u rnd H Hu p0 p1 p2 R0 R1 R2 t' T') as C.
  destruct (bezier_in_range p0 p1 p2 t' R0 R1 R2 T') as [B1 B2].
  apply Qabs_Qle_condition in C. cbn [fst snd].
  split; [apply Q.min_glb | apply Q.max_lub]; lra.
Qed.

Lemma extent_in_range (p0 p1 p2 : Q) :
  inPixelRange p0 -> inPixelRange p1 -> inPixelRange p2 ->
  - 1048577 <= inject_Z (fst (quadraticCurveMinMax rnd p0 p1 p2)) /\
  inject_Z (snd (quadraticCurveMinMax rnd p0 p1 p2)) <= 1048577.
Proof.
  intros R0 R1 R2.
  destruct (locals_in_range p0 p1 p2 R0 R1 R2) as [L U].
  assert (A : allowance == 1 # 1048576) by reflexivity.
  unfold quadraticCurveMinMax.
  destruct (minMaxLocals rnd p0 p1 p2) as [mn mx]. cbn [fst snd] in *.
  pose proof (SamplerFacts.Math_round_gt mn).
  pose proof (SamplerFacts.Math_round_le mx).
  split; lra.
Qed.

(** One axis: the canvas, placed at the computed [x_min] and sized by the
    truncated computed width, holds the curve with half the stroke width
    around it, for strokes of width at most 18. *)
Lemma axis_on_canvas (p0 p1 p2 w t : Q) (dflt : Z) :
  inPixelRange p0 -> inPixelRange p1 -> inPixelRange p2 ->
  0 < w <= 18 -> 0 <= t <= 1 ->
  let mm := quadraticCurveMinMax rnd p0 p1 p2 in
  let padding := sub rnd 30 w in
  let x_min := sub rnd (inject_Z (fst mm)) padding in
  let x_max := add rnd (inject_Z (snd mm)) padding in
  x_min + w / 2 <= Sampler.bezier p0 p1 p2 t /\
  Sampler.bezier p0 p1 p2 t + w / 2
    <= x_min + inject_Z (toUnsignedLong dflt (sub rnd x_max x_min)).
Proof.
  intros R0 R1 R2 [Hw0 Hw1] Ht. cbv zeta.
  destruct (extent_in_range p0 p1 p2 R0 R1 R2) as [Hlo Hhi].
  destruct (extent_computed u rnd H Hu p0 p1 p2 t R0 R1 R2 Ht) as [Hb1 Hb2].
  assert (T0 : 0 <= 0 <= 1) by lra.
  destruct (extent_computed u rnd H Hu p0 p1 p2 0 R0 R1 R2 T0) as [Hc1 Hc2].
  assert (B0 : Sampler.bezier p0 p1 p2 0 == p0) by (unfold Sampler.bezier; ring).
  rewrite B0 in Hc1, Hc2. destruct R0 as [A1 A2].
  set (lo := inject_Z (fst (quadraticCurveMinMax rnd p0 p1 p2))) in *.
  set (hi := inject_Z (snd (quadraticCurveMinMax rnd p0 p1 p2))) in *.
  clearbody lo hi.
  pose proof (u53_value) as V.
  unfold sub, add.
  (* padding *)
  assert (E1 : Qabs (30 - w - (30 - w)) <= 0).
  { setoid_replace (30 - w - (30 - w)) with 0 by ring. apply Qle_refl. }
  assert (M1 : Qabs (30 - w) <= 30) by (apply Qabs_Qle_condition; lra).
  pose proof (rnd_within u rnd H Hu _ _ _ _ E1 M1) as W1.
  set (pad := rnd (30 - w)) in *.
  (* x_min *)
  assert (E2 : Qabs (lo - pad - (lo - (30 - w))) <= 0 + u53 * 30).
  { absolute. lra. }
  assert (M2 : Qabs (lo - pad) <= 2097152) by (absolute; lra).
  pose proof (rnd_within u rnd H Hu _ _ _ _ E2 M2) as W2.
  set (xmin := rnd (lo - pad)) in *.
  (* x_max *)
  assert (E3 : Qabs (hi + pad - (hi + (30 - w))) <= 0 + u53 * 30).
  { absolute. lra. }
  assert (M3 : Qabs (hi + pad) <= 2097152) by (absolute; lra).
  pose proof (rnd_within u rnd H Hu _ _ _ _ E3 M3) as W3.
  set (xmax := rnd (hi + pad)) in *.
  (* the width *)
  assert (E4 : Qabs (xmax - xmin - (hi - lo + 2 * (30 - w)))
               <= 2 * (0 + u53 * 30 + u53 * 2097152)).
  { absolute. lra. }
  assert (M4 : Qabs (xmax - xmin) <= 8388608) by (absolute; lra).
  pose proof (rnd_within u rnd H Hu _ _ _ _ E4 M4) as W4.
  set (cw := rnd (xmax - xmin)) in *.
  absolute.
  assert (C0 : 0 <= cw) by lra.
  assert (C1 : cw < 2147483648) by lra.
  rewrite (CanvasBox.toUnsignedLong_floor dflt cw C0 C1).
  pose proof (Qlt_floor cw) as Hf. rewrite inject_Z_plus in Hf.
  change (inject_Z 1) with 1 in Hf.
  unfold Qdiv. change (/ 2) with (1 # 2).
  split; lra.
Qed.

End Box.

(** C4, amended: with every operation rounded to 53 bits or better, for
    every stroke width 0 < w <= 18 and every control triple of at most 2^20
    in magnitude that a pass produces, expanding the curve's rounded per-axis
    extent by padding = 30 - w on all sides yields a canvas (placed at
    [x_min], [y_min], and sized by its [unsigned long] width and height)
    that fully contains the stroked curve: every point of the curve with
    half the stroke width around it. *)
Theorem canvas_contains_stroked_curve
    (u : Q) (rnd : Q -> Q)
    (props : Props) (w : Window) (this : Instance) (host : Host)
    (el : CanvasElement) :
  Rounding u rnd -> u <= u53 ->
  fst (fst (render props (Some w) this host)) = Some el ->
  0 < orDefault (width props) 8 <= 18 ->
  let s := settings el in
  inPixelRange (p0x s) -> inPixelRange (p1x s) -> inPixelRange (p2x s) ->
  inPixelRange (p0y s) -> inPixelRange (p1y s) -> inPixelRange (p2y s) ->
  strokedCurveOn (RoundedRenderer.layout rnd s) s.
Proof.
  intros H Hu Hel Hw s R0x R1x R2x R0y R1y R2y t Ht.
  destruct (LayoutFacts.render_settings props w this host el Hel)
    as [Hsize Hwidth].
  fold s in Hsize, Hwidth. rewrite <- Hwidth in Hw.
  pose proof (axis_on_canvas u rnd H Hu (p0x s) (p1x s) (p2x s) (lineWidth s) t
                300 R0x R1x R2x Hw Ht) as (X1 & X2).
  pose proof (axis_on_canvas u rnd H Hu (p0y s) (p1y s) (p2y s) (lineWidth s) t
                150 R0y R1y R2y Hw Ht) as (Y1 & Y2).
  cbv zeta in X1, X2, Y1, Y2 |- *.
  unfold widthAttribute, heightAttribute, RoundedRenderer.layout.
  cbn [style_left style_top canvas_width canvas_height].
  rewrite Hsize.
  repeat split; assumption.
Qed.

Lemma canvas_contains_stroked_curve_witness :
  exists el,
    Rounding u53 round53 /\ u53 <= u53 /\
    fst (fst (render sampleProps (Some samplePage) (fst idle) (snd idle)))
      = Some el /\
    0 < orDefault (width sampleProps) 8 <= 18 /\
    strokedCurveOn (RoundedRenderer.layout round53 (settings el)) (settings el).
Proof.
  eexists.
  assert (Hu : u53 <= u53) by apply Qle_refl.
  split; [exact round53_rounding |]. split; [exact Hu |].
  split; [vm_compute; reflexivity |].
  assert (Hw : 0 < orDefault (width sampleProps) 8 <= 18)
    by (split; [reflexivity | discriminate]).
  split; [exact Hw |].
  refine (canvas_contains_stroked_curve u53 round53 sampleProps samplePage
            (fst idle) (snd idle) _ round53_rounding Hu _ Hw _ _ _ _ _ _);
    [vm_compute; reflexivity | ..]; split; vm_compute; discriminate.
Defined.

End CanvasRounded.
